(** * prefer-const-enum: a shallow embedding of [src/rules/preferConstEnumRule.ts]

    The rule walks a TypeScript syntax tree once, keeps one tracking
    structure per enum name and, after the walk, reports every enum that
    could be declared [const].  The syntax tree, [ts.forEachChild] and the
    failure list of [Lint.RuleWalker] belong to the host libraries; they are
    modelled by the small interfaces the rule uses. *)

From Stdlib Require Import ZArith String List Bool Lia.
From stdpp Require Import base option list strings gmap.

Open Scope string_scope.
Open Scope list_scope.
Open Scope Z_scope.

Set Warnings "-register-all".

(** ** The part of the TypeScript AST the rule looks at *)

Module ts.

(** Modifier tokens of a declaration; only their kind is ever read. *)
Inductive SyntaxKind : Type :=
| ConstKeyword
| ExportKeyword
| DeclareKeyword.

#[global] Instance SyntaxKind_eq_dec : EqDecision SyntaxKind.
Proof. solve_decision. Defined.

(** [ts.Expression] as [_isConstInitializer] sees it.  The evaluator has
    three kind guards ([isIdentifier], [isPropertyAccessExpression],
    [isElementAccessExpression]) and tests an index for
    [isStringLiteral] (the guards of [src/typeguard] compare [node.kind]
    with one syntax kind); a node of any other kind (numeric literal, binary
    expression, call, function expression with its body, ...) is an
    [OtherExpression] carrying the children [ts.forEachChild] enumerates.
    The [name] of a property access is always an identifier, so only its
    text is kept. *)
Inductive Expression : Type :=
| Identifier (text : string)
| StringLiteral (text : string)
| PropertyAccessExpression (expression : Expression) (name : string)
| ElementAccessExpression (expression : Expression)
                          (argumentExpression : option Expression)
| OtherExpression (children : list Expression).

(** Modelled from the spec: [getPropertyName] of [src/utils] is not in the
    rule's file.  The spec gives a member a canonical name, resolved from a
    plain identifier, a string literal or a literal-computed name, and no
    canonical name when the name is computed dynamically.  [propertyName]
    is the result of [getPropertyName(member.name)]: the canonical name, or
    [None] (JavaScript [undefined]) when there is none. *)
Record EnumMember : Type := mkEnumMember {
  propertyName : option string;
  initializer : option Expression
}.

(** An enum declaration: [start] is [node.getStart(sourceFile)], [name]
    is [node.name.text] and [nameEnd] is [node.name.getEnd()]. *)
Record EnumDeclaration : Type := mkEnumDeclaration {
  start : Z;
  modifiers : list SyntaxKind;
  name : string;
  nameEnd : Z;
  members : list EnumMember
}.

(** [ts.Node] as the tree walk sees it: identifiers and enum declarations
    are dispatched, [_checkUsage] reads the kind of an identifier's
    parent, everything else is walked through [ts.forEachChild]. *)
Inductive Node : Type :=
| IdentifierNode (text : string)
| StringLiteralNode (text : string)
| PropertyAccessNode (expression : Node) (name : string)
| ElementAccessNode (expression : Node) (argumentExpression : option Node)
| ExportAssignment (expression : Node)
| EnumDeclarationNode (declaration : EnumDeclaration)
| OtherNode (children : list Node).

(** A source file is its list of statements; as a parent it is a node of
    a kind the rule has no case for. *)
Record SourceFile : Type := mkSourceFile { statements : list Node }.

Definition sourceFileNode (sf : SourceFile) : Node := OtherNode (statements sf).

End ts.

(** ** The part of tslint the rule uses *)

Module Lint.

(** [Lint.hasModifier(modifiers, kind)]. *)
Definition hasModifier (modifiers : list ts.SyntaxKind) (kind : ts.SyntaxKind) : bool :=
  existsb (fun m => bool_decide (m = kind)) modifiers.

(** [new Lint.Replacement(start, length, text)]. *)
Record Replacement : Type := mkReplacement {
  replacementStart : Z;
  replacementLength : Z;
  replacementText : string
}.

(** What [addFailureFromStartToEnd(start, end, failure, fix)] records. *)
Record RuleFailure : Type := mkRuleFailure {
  failureStart : Z;
  failureEnd : Z;
  failure : string;
  fix_ : Replacement
}.

End Lint.

Definition FAIL_MESSAGE : string := "enum can be declared const".

(** ** The tracking structure and the registry *)

Record IEnum : Type := mkIEnum {
  name : string;
  isConst : bool;
  occurences : list ts.EnumDeclaration;
  members : gmap (option string) bool;
  canBeConst : bool
}.

Definition set_occurences (o : list ts.EnumDeclaration) (t : IEnum) : IEnum :=
  mkIEnum (name t) (isConst t) o (members t) (canBeConst t).
Definition set_members (m : gmap (option string) bool) (t : IEnum) : IEnum :=
  mkIEnum (name t) (isConst t) (occurences t) m (canBeConst t).
Definition set_canBeConst (b : bool) (t : IEnum) : IEnum :=
  mkIEnum (name t) (isConst t) (occurences t) (members t) b.

(** [_enums : Map<string, IEnum>].  A JavaScript [Map] iterates in insertion
    order and [walk] reports in that order, so the registry is an
    association list.  A tracking structure is a mutable object reachable
    only through its own key: a local [track] of the source is the key, and
    an assignment to one of its fields rewrites the entry in place. *)
Abbreviation Registry := (list (string * IEnum)).

(** [Map.prototype.get]. *)
Fixpoint Map_get (key : string) (m : Registry) : option IEnum :=
  match m with
  | [] => None
  | (k, v) :: m' => if decide (k = key) then Some v else Map_get key m'
  end.

(** [Map.prototype.set]: an existing key keeps its position, a new key is
    appended. *)
Fixpoint Map_set (key : string) (value : IEnum) (m : Registry) : Registry :=
  match m with
  | [] => [(key, value)]
  | (k, v) :: m' =>
      if decide (k = key) then (k, value) :: m' else (k, v) :: Map_set key value m'
  end.

(** A field assignment [track.f = ...] on the object stored under [key]. *)
Definition assign (key : string) (f : IEnum -> IEnum) (st : Registry) : Registry :=
  match Map_get key st with
  | Some track => Map_set key (f track) st
  | None => st
  end.

(** A [Map<string, boolean>.get] result used as a condition: [undefined]
    and [false] are falsy. *)
Definition truthy (o : option bool) : bool :=
  match o with
  | Some true => true
  | _ => false
  end.

Definition _getEnumInScope (name : string) (st : Registry) : option IEnum :=
  Map_get name st.

Definition _addEnum (node : ts.EnumDeclaration) (st : Registry) : Registry :=
  let st1 :=
    match Map_get (ts.name node) st with
    | None =>
        Map_set (ts.name node)
          {| name := ts.name node;
             isConst := Lint.hasModifier (ts.modifiers node) ts.ConstKeyword;
             occurences := [];
             members := ∅;
             canBeConst := true |} st
    | Some _ => st
    end in
  assign (ts.name node) (fun t => set_occurences (occurences t ++ [node]) t) st1.

(** ** The initializer evaluator *)

(** The state of one run of [_isConstInitializer]: the captured flag
    [isConst] and the registry. *)
Abbreviation EvalState := (bool * Registry)%type.

(** The identifier case of the callback [cb]. *)
Definition cbIdentifier (members : gmap (option string) bool) (text : string)
    (s : EvalState) : EvalState :=
  if truthy (members !! Some text) then s else (false, s.2).

(** The guard of the property-access case: [true] when the callback
    returns before [isConst = false]. *)
Definition propertyAccessResolved (expression : ts.Expression) (name : string)
    (st : Registry) : bool :=
  match expression with
  | ts.Identifier text =>
      match _getEnumInScope text st with
      | Some track => truthy (members track !! Some name)
      | None => false
      end
  | _ => false
  end.

(** The guard of the element-access case: [None] when the callback returns
    early, otherwise the registry after the possible [track.canBeConst =
    false]. *)
Definition elementAccessGuard (expression : ts.Expression)
    (argumentExpression : option ts.Expression) (st : Registry) : option Registry :=
  match expression with
  | ts.Identifier text =>
      match _getEnumInScope text st with
      | Some track =>
          match argumentExpression with
          | Some (ts.StringLiteral key) =>
              if truthy (members track !! Some key) then None else Some st
          | _ => Some (assign text (set_canBeConst false) st)
          end
      | None => Some st
      end
  | _ => Some st
  end.

(** The callback [cb] of [_isConstInitializer]; [ts.forEachChild] visits
    [expression] then [name] of a property access, and [expression] then
    [argumentExpression] of an element access. *)
Fixpoint cb (members : gmap (option string) bool) (current : ts.Expression)
    (s : EvalState) {struct current} : EvalState :=
  match current with
  | ts.Identifier text => cbIdentifier members text s
  | ts.StringLiteral _ => s
  | ts.PropertyAccessExpression expression name =>
      if propertyAccessResolved expression name s.2 then s
      else cbIdentifier members name (cb members expression (false, s.2))
  | ts.ElementAccessExpression expression argumentExpression =>
      match elementAccessGuard expression argumentExpression s.2 with
      | None => s
      | Some st =>
          let s1 := cb members expression (false, st) in
          match argumentExpression with
          | Some argument => cb members argument s1
          | None => s1
          end
      end
  | ts.OtherExpression children =>
      fold_left (fun acc child => cb members child acc) children s
  end.

Definition _isConstInitializer (initializer : ts.Expression)
    (members : gmap (option string) bool) (st : Registry) : bool * Registry :=
  cb members initializer (true, st).

(** ** The declaration processor *)

(** The right-hand side of [const isConstMember = track.isConst ||
    member.initializer === undefined || this._isConstInitializer(...)]: the
    evaluator runs only when the first two disjuncts are false. *)
Definition isConstMember (track : IEnum) (member : ts.EnumMember) (st : Registry)
    : bool * Registry :=
  if isConst track then (true, st)
  else match ts.initializer member with
       | None => (true, st)
       | Some initializer => _isConstInitializer initializer (members track) st
       end.

(** One iteration of the member loop of [visitEnumDeclaration]; [track] is
    the entry stored under [key].  The entry exists, [_addEnum] has just
    returned it, so the [None] branch is never taken
    (see [visitMember_tracked]). *)
Definition visitMember (key : string) (st : Registry) (member : ts.EnumMember) : Registry :=
  match Map_get key st with
  | None => st
  | Some track =>
      let verdict := isConstMember track member st in
      let st2 := assign key (fun t => set_canBeConst (canBeConst t && verdict.1) t) verdict.2 in
      assign key
        (fun t => set_members (<[ts.propertyName member := verdict.1]> (members t)) t) st2
  end.

Definition visitEnumDeclaration (node : ts.EnumDeclaration) (st : Registry) : Registry :=
  let st1 := _addEnum node st in
  let st2 := fold_left (visitMember (ts.name node)) (ts.members node) st1 in
  (* ignore exported enums for now *)
  assign (ts.name node)
    (fun t => set_canBeConst
                (canBeConst t && negb (Lint.hasModifier (ts.modifiers node) ts.ExportKeyword)) t)
    st2.

(** ** The usage validator *)

Definition isPropertyAccessNode (n : ts.Node) : bool :=
  match n with ts.PropertyAccessNode _ _ => true | _ => false end.
Definition isExportAssignment (n : ts.Node) : bool :=
  match n with ts.ExportAssignment _ => true | _ => false end.
Definition isElementAccessNode (n : ts.Node) : bool :=
  match n with ts.ElementAccessNode _ _ => true | _ => false end.

(** [parent.argumentExpression !== undefined &&
     parent.argumentExpression.kind === ts.SyntaxKind.StringLiteral]. *)
Definition argumentIsStringLiteral (n : ts.Node) : bool :=
  match n with
  | ts.ElementAccessNode _ (Some (ts.StringLiteralNode _)) => true
  | _ => false
  end.

(** [_checkUsage(node)] for an identifier with text [text] and parent
    [parent]; [isExpressionOfParent] is [parent.expression === node]. *)
Definition _checkUsage (parent : ts.Node) (isExpressionOfParent : bool)
    (text : string) (st : Registry) : Registry :=
  if isPropertyAccessNode parent
     || isExportAssignment parent
     || (isElementAccessNode parent && isExpressionOfParent
         && argumentIsStringLiteral parent)
  then st
  else match _getEnumInScope text st with
       | Some _ => assign text (set_canBeConst false) st
       | None => st
       end.

(** ** The tree walk *)

(** The callback of [walk], called on [node] whose parent is [parent];
    [isExpressionOfParent] records whether [node] is [parent.expression]. *)
Fixpoint walkCb (parent : ts.Node) (isExpressionOfParent : bool) (node : ts.Node)
    (st : Registry) {struct node} : Registry :=
  match node with
  | ts.IdentifierNode text => _checkUsage parent isExpressionOfParent text st
  | ts.EnumDeclarationNode declaration => visitEnumDeclaration declaration st
  | ts.StringLiteralNode _ => st
  | ts.PropertyAccessNode expression name =>
      _checkUsage node false name (walkCb node true expression st)
  | ts.ElementAccessNode expression argumentExpression =>
      let st1 := walkCb node true expression st in
      match argumentExpression with
      | Some argument => walkCb node false argument st1
      | None => st1
      end
  | ts.ExportAssignment expression => walkCb node true expression st
  | ts.OtherNode children =>
      fold_left (fun acc child => walkCb node false child acc) children st
  end.

(** The traversal part of [walk]: [ts.forEachChild(sourceFile, cb)] on a
    fresh walker. *)
Definition traverse (sourceFile : ts.SourceFile) : Registry :=
  fold_left (fun acc child => walkCb (ts.sourceFileNode sourceFile) false child acc)
            (ts.statements sourceFile) [].

(** The failure reported for one occurrence. *)
Definition reportOccurence (occurence : ts.EnumDeclaration)
    (failures : list Lint.RuleFailure) : list Lint.RuleFailure :=
  let start := ts.start occurence in
  let fix' := Lint.mkReplacement start 0 "const " in
  let end' := ts.nameEnd occurence in
  failures ++ [Lint.mkRuleFailure start end' FAIL_MESSAGE fix'].

(** The reporting part of [walk]: [this._enums.forEach(...)]. *)
Definition report (st : Registry) : list Lint.RuleFailure :=
  fold_left
    (fun failures entry =>
       let track := entry.2 in
       if negb (isConst track) && canBeConst track
       then fold_left (fun acc occurence => reportOccurence occurence acc)
                      (occurences track) failures
       else failures)
    st [].

Definition walk (sourceFile : ts.SourceFile) : list Lint.RuleFailure :=
  report (traverse sourceFile).

(** ** Induction over the syntax tree *)

(** The children lists and optional arguments are nested occurrences, so
    the induction principles that reach through them are stated here. *)
Definition onArgument {A : Type} (P : A -> Prop) (a : option A) : Prop :=
  match a with
  | Some x => P x
  | None => True
  end.

Section ExpressionInduction.
Variable P : ts.Expression -> Prop.
Hypothesis HIdentifier : forall text, P (ts.Identifier text).
Hypothesis HStringLiteral : forall text, P (ts.StringLiteral text).
Hypothesis HPropertyAccess :
  forall e name, P e -> P (ts.PropertyAccessExpression e name).
Hypothesis HElementAccess :
  forall e a, P e -> onArgument P a -> P (ts.ElementAccessExpression e a).
Hypothesis HOther :
  forall children, Forall P children -> P (ts.OtherExpression children).

Fixpoint Expression_nested_ind (e : ts.Expression) : P e :=
  match e with
  | ts.Identifier text => HIdentifier text
  | ts.StringLiteral text => HStringLiteral text
  | ts.PropertyAccessExpression e1 name =>
      HPropertyAccess e1 name (Expression_nested_ind e1)
  | ts.ElementAccessExpression e1 a =>
      HElementAccess e1 a (Expression_nested_ind e1)
        (match a as o return onArgument P o with
         | Some y => Expression_nested_ind y
         | None => I
         end)
  | ts.OtherExpression children =>
      HOther children
        ((fix go (l : list ts.Expression) : Forall P l :=
            match l with
            | [] => @List.Forall_nil _ P
            | x :: l' => @List.Forall_cons _ P x l' (Expression_nested_ind x) (go l')
            end) children)
  end.
End ExpressionInduction.

Section NodeInduction.
Variable P : ts.Node -> Prop.
Hypothesis HIdentifier : forall text, P (ts.IdentifierNode text).
Hypothesis HStringLiteral : forall text, P (ts.StringLiteralNode text).
Hypothesis HPropertyAccess :
  forall e name, P e -> P (ts.PropertyAccessNode e name).
Hypothesis HElementAccess :
  forall e a, P e -> onArgument P a -> P (ts.ElementAccessNode e a).
Hypothesis HExportAssignment : forall e, P e -> P (ts.ExportAssignment e).
Hypothesis HEnumDeclaration : forall d, P (ts.EnumDeclarationNode d).
Hypothesis HOther :
  forall children, Forall P children -> P (ts.OtherNode children).

Fixpoint Node_nested_ind (n : ts.Node) : P n :=
  match n with
  | ts.IdentifierNode text => HIdentifier text
  | ts.StringLiteralNode text => HStringLiteral text
  | ts.PropertyAccessNode e1 name =>
      HPropertyAccess e1 name (Node_nested_ind e1)
  | ts.ElementAccessNode e1 a =>
      HElementAccess e1 a (Node_nested_ind e1)
        (match a as o return onArgument P o with
         | Some y => Node_nested_ind y
         | None => I
         end)
  | ts.ExportAssignment e1 => HExportAssignment e1 (Node_nested_ind e1)
  | ts.EnumDeclarationNode d => HEnumDeclaration d
  | ts.OtherNode children =>
      HOther children
        ((fix go (l : list ts.Node) : Forall P l :=
            match l with
            | [] => @List.Forall_nil _ P
            | x :: l' => @List.Forall_cons _ P x l' (Node_nested_ind x) (go l')
            end) children)
  end.
End NodeInduction.

(** ** The recursion with an explicit depth bound *)

(** The callbacks again, with the depth of the call stack made explicit:
    every call of a callback takes one frame, and [None] is the stack
    running out.  Nothing else in the rule can fail. *)
Fixpoint cbWithin (depth : nat) (members : gmap (option string) bool)
    (current : ts.Expression) (s : EvalState) {struct depth} : option EvalState :=
  match depth with
  | O => None
  | S depth' =>
      match current with
      | ts.Identifier text => Some (cbIdentifier members text s)
      | ts.StringLiteral _ => Some s
      | ts.PropertyAccessExpression expression name =>
          if propertyAccessResolved expression name s.2 then Some s
          else s1 ← cbWithin depth' members expression (false, s.2);
               cbWithin depth' members (ts.Identifier name) s1
      | ts.ElementAccessExpression expression argumentExpression =>
          match elementAccessGuard expression argumentExpression s.2 with
          | None => Some s
          | Some st =>
              s1 ← cbWithin depth' members expression (false, st);
              match argumentExpression with
              | Some argument => cbWithin depth' members argument s1
              | None => Some s1
              end
          end
      | ts.OtherExpression children =>
          fold_left (fun acc child => acc ≫= cbWithin depth' members child)
                    children (Some s)
      end
  end.

Definition isConstMemberWithin (depth : nat) (track : IEnum) (member : ts.EnumMember)
    (st : Registry) : option (bool * Registry) :=
  if isConst track then Some (true, st)
  else match ts.initializer member with
       | None => Some (true, st)
       | Some initializer => cbWithin depth (members track) initializer (true, st)
       end.

Definition visitMemberWithin (depth : nat) (key : string) (st : Registry)
    (member : ts.EnumMember) : option Registry :=
  match Map_get key st with
  | None => Some st
  | Some track =>
      verdict ← isConstMemberWithin depth track member st;
      let st2 := assign key (fun t => set_canBeConst (canBeConst t && verdict.1) t) verdict.2 in
      Some (assign key
              (fun t => set_members (<[ts.propertyName member := verdict.1]> (members t)) t)
              st2)
  end.

Definition visitEnumDeclarationWithin (depth : nat) (node : ts.EnumDeclaration)
    (st : Registry) : option Registry :=
  let st1 := _addEnum node st in
  st2 ← fold_left (fun acc member => acc ≫= fun st' =>
                     visitMemberWithin depth (ts.name node) st' member)
                  (ts.members node) (Some st1);
  Some (assign (ts.name node)
          (fun t => set_canBeConst
                      (canBeConst t && negb (Lint.hasModifier (ts.modifiers node) ts.ExportKeyword)) t)
          st2).

Fixpoint walkCbWithin (depth : nat) (parent : ts.Node) (isExpressionOfParent : bool)
    (node : ts.Node) (st : Registry) {struct depth} : option Registry :=
  match depth with
  | O => None
  | S depth' =>
      match node with
      | ts.IdentifierNode text => Some (_checkUsage parent isExpressionOfParent text st)
      | ts.EnumDeclarationNode declaration =>
          visitEnumDeclarationWithin depth' declaration st
      | ts.StringLiteralNode _ => Some st
      | ts.PropertyAccessNode expression name =>
          st1 ← walkCbWithin depth' node true expression st;
          walkCbWithin depth' node false (ts.IdentifierNode name) st1
      | ts.ElementAccessNode expression argumentExpression =>
          st1 ← walkCbWithin depth' node true expression st;
          match argumentExpression with
          | Some argument => walkCbWithin depth' node false argument st1
          | None => Some st1
          end
      | ts.ExportAssignment expression => walkCbWithin depth' node true expression st
      | ts.OtherNode children =>
          fold_left (fun acc child => acc ≫= walkCbWithin depth' node false child)
                    children (Some st)
      end
  end.

Definition walkWithin (depth : nat) (sourceFile : ts.SourceFile)
    : option (list Lint.RuleFailure) :=
  st ← fold_left (fun acc child =>
                    acc ≫= walkCbWithin depth (ts.sourceFileNode sourceFile) false child)
                 (ts.statements sourceFile) (Some []);
  Some (report st).

(** The nesting depth of the syntax: the number of frames the callbacks
    need. *)
Definition maxOver {A : Type} (f : A -> nat) (l : list A) : nat :=
  fold_right (fun x acc => Nat.max (f x) acc) O l.

Fixpoint expressionDepth (e : ts.Expression) : nat :=
  match e with
  | ts.Identifier _ | ts.StringLiteral _ => 1%nat
  | ts.PropertyAccessExpression e1 _ => S (expressionDepth e1)
  | ts.ElementAccessExpression e1 a =>
      S (Nat.max (expressionDepth e1)
                 (match a with Some x => expressionDepth x | None => O end))
  | ts.OtherExpression children => S (maxOver expressionDepth children)
  end.

Definition declarationDepth (d : ts.EnumDeclaration) : nat :=
  maxOver (fun member => match ts.initializer member with
                         | Some e => expressionDepth e
                         | None => O
                         end) (ts.members d).

Fixpoint nodeDepth (n : ts.Node) : nat :=
  match n with
  | ts.IdentifierNode _ | ts.StringLiteralNode _ => 1%nat
  | ts.PropertyAccessNode e _ => S (nodeDepth e)
  | ts.ElementAccessNode e a =>
      S (Nat.max (nodeDepth e) (match a with Some x => nodeDepth x | None => O end))
  | ts.ExportAssignment e => S (nodeDepth e)
  | ts.EnumDeclarationNode d => S (declarationDepth d)
  | ts.OtherNode children => S (maxOver nodeDepth children)
  end.

Definition sourceFileDepth (sourceFile : ts.SourceFile) : nat :=
  maxOver nodeDepth (ts.statements sourceFile).

(** ** Auxiliary definitions used in the statements *)

(** The eligibility flag of the enum tracked under [n], if any. *)
Definition canBeConstOf (n : string) (st : Registry) : option bool :=
  canBeConst <$> Map_get n st.

(** The keys of the registry in iteration order. *)
Definition keys (st : Registry) : list string := st.*1.

(** [onlyClears st st']: the registry [st'] has the keys of [st] in the same
    order, and every entry is either untouched or has lost [canBeConst]. *)
Definition onlyClears (st st' : Registry) : Prop :=
  keys st' = keys st /\
  forall n, Map_get n st' = Map_get n st \/
            Map_get n st' = set_canBeConst false <$> Map_get n st.

(** Sub-expressions: [occursIn x e] when [x] is [e] or one of the nodes
    below it ([ts.forEachChild], transitively). *)
Inductive occursIn (x : ts.Expression) : ts.Expression -> Prop :=
| occurs_here : occursIn x x
| occurs_property_expression e name :
    occursIn x e -> occursIn x (ts.PropertyAccessExpression e name)
| occurs_property_name e name :
    x = ts.Identifier name -> occursIn x (ts.PropertyAccessExpression e name)
| occurs_element_expression e a :
    occursIn x e -> occursIn x (ts.ElementAccessExpression e a)
| occurs_element_argument e a :
    occursIn x a -> occursIn x (ts.ElementAccessExpression e (Some a))
| occurs_child children child :
    In child children -> occursIn x child -> occursIn x (ts.OtherExpression children).

(** [isStringLiteral(argumentExpression)] on an index that may be absent. *)
Definition isStringLiteralArgument (a : option ts.Expression) : bool :=
  match a with
  | Some (ts.StringLiteral _) => true
  | _ => false
  end.

(** The occurrences and the member map recorded under [n] (none and empty
    when [n] is not tracked). *)
Definition occurencesOf (n : string) (st : Registry) : list ts.EnumDeclaration :=
  default [] (occurences <$> Map_get n st).
Definition membersOf (n : string) (st : Registry) : gmap (option string) bool :=
  default ∅ (members <$> Map_get n st).

(** The canonical member names a declaration records. *)
Definition declaredNames (d : ts.EnumDeclaration) : gset (option string) :=
  list_to_set (ts.propertyName <$> ts.members d).

(** The enum declarations the tree walk dispatches below [node], in the
    order of the walk. *)
Fixpoint declarationsOf (node : ts.Node) : list ts.EnumDeclaration :=
  match node with
  | ts.IdentifierNode _ | ts.StringLiteralNode _ => []
  | ts.PropertyAccessNode e _ => declarationsOf e
  | ts.ElementAccessNode e a =>
      declarationsOf e ++ match a with Some x => declarationsOf x | None => [] end
  | ts.ExportAssignment e => declarationsOf e
  | ts.EnumDeclarationNode d => [d]
  | ts.OtherNode children => flat_map declarationsOf children
  end.

Definition declarations (sourceFile : ts.SourceFile) : list ts.EnumDeclaration :=
  flat_map declarationsOf (ts.statements sourceFile).

(** The walk over a list of siblings, as [ts.forEachChild] runs it. *)
Definition walkChildren (parent : ts.Node) (children : list ts.Node) (st : Registry)
    : Registry :=
  fold_left (fun acc child => walkCb parent false child acc) children st.

(** [downward st st']: every flag [canBeConst] tracked in [st] is still
    tracked in [st'], unchanged or cleared. *)
Definition downward (st st' : Registry) : Prop :=
  forall n b, canBeConstOf n st = Some b ->
              canBeConstOf n st' = Some b \/ canBeConstOf n st' = Some false.

(** The declarations of [ds] that carry the name [n]. *)
Definition named (n : string) (ds : list ts.EnumDeclaration) : list ts.EnumDeclaration :=
  filter (fun d => ts.name d = n) ds.

(** [walked ds st st']: what a stretch of the walk that dispatches the
    declarations [ds] may do to the registry. *)
Record walked (ds : list ts.EnumDeclaration) (st st' : Registry) : Prop := {
  walked_NoDup : NoDup (keys st) -> NoDup (keys st');
  walked_downward : downward st st';
  walked_isConst : forall n t, Map_get n st = Some t ->
                               isConst <$> Map_get n st' = Some (isConst t);
  walked_occurences : forall n, occurencesOf n st' = occurencesOf n st ++ named n ds;
  walked_members : forall n, dom (membersOf n st')
                             = dom (membersOf n st) ∪ ⋃ (declaredNames <$> named n ds);
  walked_export : forall d, d ∈ ds ->
                            Lint.hasModifier (ts.modifiers d) ts.ExportKeyword = true ->
                            canBeConstOf (ts.name d) st' = Some false
}.

(** The operations of the rule that read or write [canBeConst]. *)
Inductive Operation : Type :=
| AddEnum (node : ts.EnumDeclaration)
| VisitMember (key : string) (member : ts.EnumMember)
| VisitEnumDeclaration (node : ts.EnumDeclaration)
| CheckUsage (parent : ts.Node) (isExpressionOfParent : bool) (text : string)
| EvaluateInitializer (initializer : ts.Expression) (members : gmap (option string) bool)
| WalkNode (parent : ts.Node) (isExpressionOfParent : bool) (node : ts.Node)
| WalkChildren (parent : ts.Node) (children : list ts.Node).

Definition perform (op : Operation) (st : Registry) : Registry :=
  match op with
  | AddEnum node => _addEnum node st
  | VisitMember key member => visitMember key st member
  | VisitEnumDeclaration node => visitEnumDeclaration node st
  | CheckUsage parent b text => _checkUsage parent b text st
  | EvaluateInitializer initializer members => (_isConstInitializer initializer members st).2
  | WalkNode parent b node => walkCb parent b node st
  | WalkChildren parent children => walkChildren parent children st
  end.

(** The finding the rule is expected to report for one occurrence: the
    range from the start of the declaration to the end of its name, the
    fixed message, and the insertion of [const ] at the start. *)
Definition expectedFinding (occurence : ts.EnumDeclaration) : Lint.RuleFailure :=
  {| Lint.failureStart := ts.start occurence;
     Lint.failureEnd := ts.nameEnd occurence;
     Lint.failure := "enum can be declared const";
     Lint.fix_ := {| Lint.replacementStart := ts.start occurence;
                     Lint.replacementLength := 0;
                     Lint.replacementText := "const " |} |}.

(** The findings expected for one registry entry. *)
Definition expectedFindings (track : IEnum) : list Lint.RuleFailure :=
  if isConst track then []
  else if canBeConst track then map expectedFinding (occurences track)
  else [].

(** [isIdentifier(e) && e.text === n]. *)
Definition isIdentifierNamed (n : string) (e : ts.Expression) : bool :=
  match e with
  | ts.Identifier text => bool_decide (text = n)
  | _ => false
  end.

(** [indexesDynamically n e]: some indexed access below [e] has the plain
    identifier [n] as base and an index that is absent or not a string
    literal. *)
Fixpoint indexesDynamically (n : string) (e : ts.Expression) : bool :=
  match e with
  | ts.Identifier _ | ts.StringLiteral _ => false
  | ts.PropertyAccessExpression e1 _ => indexesDynamically n e1
  | ts.ElementAccessExpression e1 a =>
      (isIdentifierNamed n e1 && negb (isStringLiteralArgument a))
      || indexesDynamically n e1
      || match a with Some x => indexesDynamically n x | None => false end
  | ts.OtherExpression children => existsb (indexesDynamically n) children
  end.

(** The same for the initializers of a declaration. *)
Definition declarationIndexesDynamically (n : string) (d : ts.EnumDeclaration) : bool :=
  existsb (fun member => match ts.initializer member with
                         | Some e => indexesDynamically n e
                         | None => false
                         end) (ts.members d).

(** The condition under which [_checkUsage] returns at once. *)
Definition usageExempt (parent : ts.Node) (isExpressionOfParent : bool) : bool :=
  isPropertyAccessNode parent
  || isExportAssignment parent
  || (isElementAccessNode parent && isExpressionOfParent && argumentIsStringLiteral parent).

(** [disqualifies n parent b node]: the walk of [node] meets an identifier
    with text [n] in a position that is not exempt, or an enum declaration
    one of whose initializers indexes [n] dynamically. *)
Fixpoint disqualifies (n : string) (parent : ts.Node) (isExpressionOfParent : bool)
    (node : ts.Node) {struct node} : bool :=
  match node with
  | ts.IdentifierNode text =>
      bool_decide (text = n) && negb (usageExempt parent isExpressionOfParent)
  | ts.StringLiteralNode _ => false
  | ts.PropertyAccessNode e _ => disqualifies n node true e
  | ts.ElementAccessNode e a =>
      disqualifies n node true e
      || match a with Some x => disqualifies n node false x | None => false end
  | ts.ExportAssignment e => disqualifies n node true e
  | ts.EnumDeclarationNode d => declarationIndexesDynamically n d
  | ts.OtherNode children => existsb (disqualifies n node false) children
  end.

Definition disqualifiedIn (n : string) (sourceFile : ts.SourceFile) : bool :=
  existsb (disqualifies n (ts.sourceFileNode sourceFile) false) (ts.statements sourceFile).

(** A declaration without member initializers, export modifier or const
    modifier. *)
Definition plainDeclaration (d : ts.EnumDeclaration) : bool :=
  forallb (fun member => match ts.initializer member with
                         | None => true
                         | Some _ => false
                         end) (ts.members d)
  && negb (Lint.hasModifier (ts.modifiers d) ts.ExportKeyword)
  && negb (Lint.hasModifier (ts.modifiers d) ts.ConstKeyword).

(** [eligible n st]: if [n] is tracked, it is not const and can be const. *)
Definition eligible (n : string) (st : Registry) : Prop :=
  forall t, Map_get n st = Some t -> isConst t = false /\ canBeConst t = true.

(** The verdict of the evaluator as a function of the expression alone:
    an identifier must name a sibling known constant, a property access or
    an indexed access must resolve to a member known constant of a tracked
    enum, and any other node is constant when all its children are. *)
Fixpoint constantShape (ms : gmap (option string) bool) (st : Registry)
    (e : ts.Expression) : bool :=
  match e with
  | ts.Identifier text => truthy (ms !! Some text)
  | ts.StringLiteral _ => true
  | ts.PropertyAccessExpression e1 name => propertyAccessResolved e1 name st
  | ts.ElementAccessExpression e1 a =>
      match elementAccessGuard e1 a st with
      | None => true
      | Some _ => false
      end
  | ts.OtherExpression children => forallb (constantShape ms st) children
  end.

(** The keys of a [Map] after [set] calls on fresh keys only: a name is
    appended the first time it is met. *)
Definition addKey (ks : list string) (k : string) : list string :=
  if decide (k ∈ ks) then ks else ks ++ [k].
Definition firstSeen (ks : list string) (names : list string) : list string :=
  fold_left addKey names ks.

(** The const modifier of the first declaration of [n] among [ds]. *)
Definition firstIsConst (n : string) (ds : list ts.EnumDeclaration) : option bool :=
  (fun d => Lint.hasModifier (ts.modifiers d) ts.ConstKeyword) <$> head (named n ds).

(** Every tracking structure is stored under its own [name]. *)
Definition wellKeyed (st : Registry) : Prop :=
  forall k t, Map_get k st = Some t -> name t = k.

(** [run ds st st']: the keys, the [isConst] flags and the names of the
    registry after a stretch of the walk that dispatches [ds]. *)
Record run (ds : list ts.EnumDeclaration) (st st' : Registry) : Prop := {
  run_keys : keys st' = firstSeen (keys st) (ts.name <$> ds);
  run_isConst : forall n, isConst <$> Map_get n st'
                          = match Map_get n st with
                            | Some t => Some (isConst t)
                            | None => firstIsConst n ds
                            end;
  run_wellKeyed : wellKeyed st -> wellKeyed st'
}.

(** ** Sample programs *)

(** A numeric literal has no children. *)
Definition numericLiteral : ts.Expression := ts.OtherExpression [].

(** [enum A { X = 1 }] *)
Definition enum_A : ts.EnumDeclaration :=
  {| ts.start := 0; ts.modifiers := []; ts.name := "A"; ts.nameEnd := 6;
     ts.members := [ts.mkEnumMember (Some "X") (Some numericLiteral)] |}.

(** [A["Z"]] *)
Definition access_A_Z : ts.Expression :=
  ts.ElementAccessExpression (ts.Identifier "A") (Some (ts.StringLiteral "Z")).

(** [enum B { Y = A["Z"] }] *)
Definition enum_B_indexing_A : ts.EnumDeclaration :=
  {| ts.start := 20; ts.modifiers := []; ts.name := "B"; ts.nameEnd := 26;
     ts.members := [ts.mkEnumMember (Some "Y") (Some access_A_Z)] |}.

(** [A[i]] for a variable [i], and [A[i] + 1]. *)
Definition access_A_i : ts.Expression :=
  ts.ElementAccessExpression (ts.Identifier "A") (Some (ts.Identifier "i")).
Definition access_A_i_plus_1 : ts.Expression :=
  ts.OtherExpression [access_A_i; numericLiteral].

(** [foo.A], a property access whose property name is the text [A]. *)
Definition access_foo_A : ts.Node :=
  ts.PropertyAccessNode (ts.IdentifierNode "foo") "A".

(** [f(A)], a call with the identifier [A] as argument. *)
Definition call_f_A : ts.Node :=
  ts.OtherNode [ts.IdentifierNode "f"; ts.IdentifierNode "A"].

(** [const enum A { X = Z }], with [Z] a constant declared outside. *)
Definition const_enum_A : ts.EnumDeclaration :=
  {| ts.start := 0; ts.modifiers := [ts.ConstKeyword]; ts.name := "A"; ts.nameEnd := 12;
     ts.members := [ts.mkEnumMember (Some "X") (Some (ts.Identifier "Z"))] |}.

(** [enum C { P = Q, Q = 1 }]: [P] refers to the later member [Q]. *)
Definition enum_C_forward : ts.EnumDeclaration :=
  {| ts.start := 0; ts.modifiers := []; ts.name := "C"; ts.nameEnd := 6;
     ts.members := [ts.mkEnumMember (Some "P") (Some (ts.Identifier "Q"));
                    ts.mkEnumMember (Some "Q") (Some numericLiteral)] |}.

(** [A.X] and [enum B { Y = A.X }]. *)
Definition access_A_X : ts.Expression :=
  ts.PropertyAccessExpression (ts.Identifier "A") "X".
Definition enum_B_referring_A : ts.EnumDeclaration :=
  {| ts.start := 20; ts.modifiers := []; ts.name := "B"; ts.nameEnd := 26;
     ts.members := [ts.mkEnumMember (Some "Y") (Some access_A_X)] |}.

(** [enum A { X = 1 }  enum B { Y = A.X }] *)
Definition program_A_then_B : ts.SourceFile :=
  ts.mkSourceFile [ts.EnumDeclarationNode enum_A; ts.EnumDeclarationNode enum_B_referring_A].

(** [enum B { A, Y = A }]: the member [A] of [B] shares its name with the
    enum [A]. *)
Definition enum_B_shadowing_A : ts.EnumDeclaration :=
  {| ts.start := 20; ts.modifiers := []; ts.name := "B"; ts.nameEnd := 26;
     ts.members := [ts.mkEnumMember (Some "A") None;
                    ts.mkEnumMember (Some "Y") (Some (ts.Identifier "A"))] |}.

(** [enum S { Y = S }]: the initializer names the enclosing enum. *)
Definition enum_S_self : ts.EnumDeclaration :=
  {| ts.start := 0; ts.modifiers := []; ts.name := "S"; ts.nameEnd := 6;
     ts.members := [ts.mkEnumMember (Some "Y") (Some (ts.Identifier "S"))] |}.

(** [enum B { Y = A }] *)
Definition enum_B_naming_A : ts.EnumDeclaration :=
  {| ts.start := 20; ts.modifiers := []; ts.name := "B"; ts.nameEnd := 26;
     ts.members := [ts.mkEnumMember (Some "Y") (Some (ts.Identifier "A"))] |}.

(** [enum Color { Red, Green, Blue }] *)
Definition enum_Color : ts.EnumDeclaration :=
  {| ts.start := 0; ts.modifiers := []; ts.name := "Color"; ts.nameEnd := 10;
     ts.members := [ts.mkEnumMember (Some "Red") None;
                    ts.mkEnumMember (Some "Green") None;
                    ts.mkEnumMember (Some "Blue") None] |}.

(** [enum Color { Red, Green, Blue }  f(Color);] *)
Definition program_Color_passed : ts.SourceFile :=
  ts.mkSourceFile [ts.EnumDeclarationNode enum_Color;
                   ts.OtherNode [ts.OtherNode [ts.IdentifierNode "f";
                                               ts.IdentifierNode "Color"]]].

(** [enum Color { Red, Green, Blue }  Color.Red;] *)
Definition program_Color_member : ts.SourceFile :=
  ts.mkSourceFile [ts.EnumDeclarationNode enum_Color;
                   ts.OtherNode [ts.PropertyAccessNode (ts.IdentifierNode "Color") "Red"]].

(** [(() => 1)()]: a call of an arrow function; the call, the
    parenthesized expression, the arrow function, its [=>] token and the
    literal are all nodes the evaluator has no case for. *)
Definition call_of_arrow : ts.Expression :=
  ts.OtherExpression
    [ts.OtherExpression [ts.OtherExpression [ts.OtherExpression []; numericLiteral]]].

(** [enum A { X = (() => 1)() }] *)
Definition enum_A_computed : ts.EnumDeclaration :=
  {| ts.start := 0; ts.modifiers := []; ts.name := "A"; ts.nameEnd := 6;
     ts.members := [ts.mkEnumMember (Some "X") (Some call_of_arrow)] |}.

(** The registry after [enum A { X = 1 }]. *)
Definition registry_A : Registry := visitEnumDeclaration enum_A [].

(** [enum A { X = 1 }  enum B { Y = A["Z"] }] *)
Definition program_A_indexed_by_literal : ts.SourceFile :=
  ts.mkSourceFile [ts.EnumDeclarationNode enum_A; ts.EnumDeclarationNode enum_B_indexing_A].

(** [enum A { X = 1 }  foo.A;] *)
Definition program_A_as_property_name : ts.SourceFile :=
  ts.mkSourceFile [ts.EnumDeclarationNode enum_A; ts.OtherNode [access_foo_A]].

(** [export enum A { Y }], a second declaration of [A], and
    [enum A { X = 1 }  export enum A { Y }]. *)
Definition enum_A_exported : ts.EnumDeclaration :=
  {| ts.start := 30; ts.modifiers := [ts.ExportKeyword]; ts.name := "A"; ts.nameEnd := 43;
     ts.members := [ts.mkEnumMember (Some "Y") None] |}.
Definition program_A_merged : ts.SourceFile :=
  ts.mkSourceFile [ts.EnumDeclarationNode enum_A; ts.EnumDeclarationNode enum_A_exported].

(** [f(Color);  enum Color { Red, Green, Blue }]: the enum is passed as an
    argument before it is declared. *)
Definition program_Color_used_before : ts.SourceFile :=
  ts.mkSourceFile [ts.OtherNode [ts.OtherNode [ts.IdentifierNode "f";
                                               ts.IdentifierNode "Color"]];
                   ts.EnumDeclarationNode enum_Color].

(** [reportable n st]: the entry of [n] passes the test of the report
    loop. *)
Definition reportable (n : string) (st : Registry) : bool :=
  match Map_get n st with
  | Some track => negb (isConst track) && canBeConst track
  | None => false
  end.

(** [const enum K { V = A[i] }]: a const enum whose initializer indexes
    [A] dynamically. *)
Definition const_enum_K : ts.EnumDeclaration :=
  {| ts.start := 40; ts.modifiers := [ts.ConstKeyword]; ts.name := "K"; ts.nameEnd := 52;
     ts.members := [ts.mkEnumMember (Some "V") (Some access_A_i)] |}.

(** [usedUnsafely n parent b node]: the walk of [node] meets, outside enum
    declarations, an identifier with text [n] in a position the usage
    validator does not exempt. *)
Fixpoint usedUnsafely (n : string) (parent : ts.Node) (isExpressionOfParent : bool)
    (node : ts.Node) {struct node} : bool :=
  match node with
  | ts.IdentifierNode text =>
      bool_decide (text = n) && negb (usageExempt parent isExpressionOfParent)
  | ts.StringLiteralNode _ => false
  | ts.PropertyAccessNode e _ => usedUnsafely n node true e
  | ts.ElementAccessNode e a =>
      usedUnsafely n node true e
      || match a with Some x => usedUnsafely n node false x | None => false end
  | ts.ExportAssignment e => usedUnsafely n node true e
  | ts.EnumDeclarationNode _ => false
  | ts.OtherNode children => existsb (usedUnsafely n node false) children
  end.

(** [enum A { X = 1 }  A[k];] for a variable [k]. *)
Definition program_A_indexed_by_variable : ts.SourceFile :=
  ts.mkSourceFile
    [ts.EnumDeclarationNode enum_A;
     ts.OtherNode [ts.ElementAccessNode (ts.IdentifierNode "A")
                                        (Some (ts.IdentifierNode "k"))]].

(** Every member recorded for [t] is recorded constant. *)
Definition membersAllConstant (t : IEnum) : Prop :=
  forall k v, members t !! k = Some v -> v = true.

(** [constantWhenEligible st]: an entry that can still be const has only
    members recorded constant. *)
Definition constantWhenEligible (st : Registry) : Prop :=
  forall n t, Map_get n st = Some t -> canBeConst t = true -> membersAllConstant t.

(** [enum B { Y = A[i] }] *)
Definition enum_B_indexing_A_by_variable : ts.EnumDeclaration :=
  {| ts.start := 20; ts.modifiers := []; ts.name := "B"; ts.nameEnd := 26;
     ts.members := [ts.mkEnumMember (Some "Y") (Some access_A_i)] |}.

(** * Properties *)

(** ** The registry as a map *)

Lemma Map_get_set_eq k v (m : Registry) : Map_get k (Map_set k v m) = Some v.
Proof.
  induction m as [|[k' v'] m IH]; simpl.
  - by rewrite decide_True.
  - destruct (decide (k' = k)) as [->|Hne]; simpl.
    + by rewrite decide_True.
    + by rewrite decide_False.
Qed.

Lemma Map_get_set_ne k k' v (m : Registry) :
  k ≠ k' -> Map_get k' (Map_set k v m) = Map_get k' m.
Proof.
  intros Hne. induction m as [|[k0 v0] m IH]; simpl.
  - by rewrite decide_False.
  - destruct (decide (k0 = k)) as [->|Hne0]; simpl.
    + by rewrite !decide_False.
    + destruct (decide (k0 = k')); [done | exact IH].
Qed.

Lemma Map_get_None_keys k (m : Registry) : Map_get k m = None <-> k ∉ keys m.
Proof.
  unfold keys. induction m as [|[k0 v0] m IH]; simpl.
  - split; [intros _; apply not_elem_of_nil | done].
  - rewrite not_elem_of_cons. destruct (decide (k0 = k)) as [->|Hne].
    + split; [done | intros [? _]; done].
    + rewrite IH. split; [intros ?; split; [congruence | done] | intros [_ ?]; done].
Qed.

Lemma Map_get_Some_elem k v (m : Registry) : Map_get k m = Some v -> (k, v) ∈ m.
Proof.
  induction m as [|[k0 v0] m IH]; simpl; [done |].
  destruct (decide (k0 = k)) as [->|Hne].
  - intros [= ->]. apply list_elem_of_here.
  - intros H. apply list_elem_of_further, IH, H.
Qed.

Lemma keys_Map_set_present k v (m : Registry) :
  is_Some (Map_get k m) -> keys (Map_set k v m) = keys m.
Proof.
  unfold keys. induction m as [|[k0 v0] m IH]; cbn [Map_set Map_get].
  - intros [? ?]; done.
  - destruct (decide (k0 = k)) as [->|Hne]; [done |].
    intros H. rewrite !fmap_cons. f_equal. by apply IH.
Qed.

Lemma keys_Map_set_absent k v (m : Registry) :
  Map_get k m = None -> keys (Map_set k v m) = keys m ++ [k].
Proof.
  unfold keys. induction m as [|[k0 v0] m IH]; cbn [Map_set Map_get]; [done |].
  destruct (decide (k0 = k)) as [->|Hne]; [done |].
  intros H. rewrite !fmap_cons. cbn [app]. f_equal. by apply IH.
Qed.

Lemma Map_get_assign_eq k f (st : Registry) :
  Map_get k (assign k f st) = f <$> Map_get k st.
Proof.
  unfold assign. destruct (Map_get k st) as [t|] eqn:E; simpl.
  - apply Map_get_set_eq.
  - by rewrite E.
Qed.

Lemma Map_get_assign_ne k k' f (st : Registry) :
  k ≠ k' -> Map_get k' (assign k f st) = Map_get k' st.
Proof.
  intros Hne. unfold assign. destruct (Map_get k st); [|done].
  by apply Map_get_set_ne.
Qed.

Lemma Map_get_assign k k' f (st : Registry) :
  Map_get k' (assign k f st)
  = if decide (k = k') then f <$> Map_get k' st else Map_get k' st.
Proof.
  destruct (decide (k = k')) as [->|Hne].
  - apply Map_get_assign_eq.
  - by apply Map_get_assign_ne.
Qed.

Lemma keys_assign k f (st : Registry) : keys (assign k f st) = keys st.
Proof.
  unfold assign. destruct (Map_get k st) eqn:E; [|done].
  apply keys_Map_set_present. rewrite E. by eexists.
Qed.

Lemma canBeConstOf_assign_clear k n (st : Registry) :
  canBeConstOf n (assign k (set_canBeConst false) st)
  = if decide (k = n) then (fun _ => false) <$> canBeConstOf n st else canBeConstOf n st.
Proof.
  unfold canBeConstOf. rewrite Map_get_assign.
  destruct (decide (k = n)); [|done].
  by destruct (Map_get n st).
Qed.

(** ** What the evaluator can do to the registry *)

Lemma onlyClears_refl st : onlyClears st st.
Proof. split; [done | by left]. Qed.

Lemma onlyClears_trans st1 st2 st3 :
  onlyClears st1 st2 -> onlyClears st2 st3 -> onlyClears st1 st3.
Proof.
  intros [K1 H1] [K2 H2]. split; [congruence |].
  intros n. destruct (H2 n) as [-> | ->]; destruct (H1 n) as [-> | ->]; auto.
  right. by destruct (Map_get n st1).
Qed.

Lemma onlyClears_assign k st : onlyClears st (assign k (set_canBeConst false) st).
Proof.
  split; [apply keys_assign |].
  intros n. rewrite Map_get_assign. destruct (decide (k = n)); auto.
Qed.

Lemma elementAccessGuard_onlyClears e a st st' :
  elementAccessGuard e a st = Some st' -> onlyClears st st'.
Proof.
  unfold elementAccessGuard. intros H.
  destruct e; try (injection H as <-; apply onlyClears_refl).
  destruct (_getEnumInScope text st); [| injection H as <-; apply onlyClears_refl].
  destruct a as [[]|];
    try (injection H as <-; apply onlyClears_assign).
  destruct (truthy _); [done | injection H as <-; apply onlyClears_refl].
Qed.

Lemma cbIdentifier_registry m text (s : EvalState) : (cbIdentifier m text s).2 = s.2.
Proof. unfold cbIdentifier. by destruct (truthy _). Qed.

Lemma cbIdentifier_flag m text (s : EvalState) :
  (cbIdentifier m text s).1 = s.1 && truthy (m !! Some text).
Proof.
  unfold cbIdentifier. destruct (truthy _); simpl.
  - by rewrite andb_true_r.
  - by rewrite andb_false_r.
Qed.

Lemma fold_cb_onlyClears m children :
  Forall (fun e => forall s : EvalState, onlyClears s.2 (cb m e s).2) children ->
  forall s : EvalState,
    onlyClears s.2 (fold_left (fun acc child => cb m child acc) children s).2.
Proof.
  induction 1 as [|e l He Hl IH]; intros s; simpl.
  - apply onlyClears_refl.
  - eapply onlyClears_trans; [apply He | apply IH].
Qed.

Lemma cb_onlyClears m e : forall s : EvalState, onlyClears s.2 (cb m e s).2.
Proof.
  induction e as [text|text|e name IH|e a IHe IHa|children IH]
    using Expression_nested_ind; intros s; cbn [cb].
  - rewrite cbIdentifier_registry. apply onlyClears_refl.
  - apply onlyClears_refl.
  - destruct (propertyAccessResolved e name s.2); [apply onlyClears_refl |].
    rewrite cbIdentifier_registry. apply (IH (false, s.2)).
  - destruct (elementAccessGuard e a s.2) as [st|] eqn:G; [| apply onlyClears_refl].
    apply elementAccessGuard_onlyClears in G.
    eapply onlyClears_trans; [exact G |].
    destruct a as [arg|]; simpl in IHa.
    + eapply onlyClears_trans; [apply (IHe (false, st)) | apply IHa].
    + apply (IHe (false, st)).
  - by apply fold_cb_onlyClears.
Qed.

(** The captured flag [isConst] is never set back to [true]. *)
Lemma fold_cb_flag m children :
  Forall (fun e => forall s : EvalState, (cb m e s).1 = true -> s.1 = true) children ->
  forall s : EvalState,
    (fold_left (fun acc child => cb m child acc) children s).1 = true -> s.1 = true.
Proof.
  induction 1 as [|e l He Hl IH]; intros s; simpl; [done |].
  intros H. apply He, IH, H.
Qed.

Lemma cb_flag m e : forall s : EvalState, (cb m e s).1 = true -> s.1 = true.
Proof.
  induction e as [text|text|e name IH|e a IHe IHa|children IH]
    using Expression_nested_ind; intros s; cbn [cb].
  - rewrite cbIdentifier_flag. by intros [? _]%andb_true_iff.
  - done.
  - destruct (propertyAccessResolved e name s.2); [done |].
    rewrite cbIdentifier_flag. intros [H _]%andb_true_iff.
    by apply IH in H.
  - destruct (elementAccessGuard e a s.2) as [st|]; [| done].
    destruct a as [arg|]; simpl in IHa.
    + intros H. by apply IHa, IHe in H.
    + intros H. by apply IHe in H.
  - by apply fold_cb_flag.
Qed.

Lemma cb_flag_false m e st : (cb m e (false, st)).1 = false.
Proof.
  destruct (cb m e (false, st)).1 eqn:E; [| done].
  by apply cb_flag in E.
Qed.

Lemma _isConstInitializer_onlyClears e m st :
  onlyClears st (_isConstInitializer e m st).2.
Proof. apply (cb_onlyClears m e (true, st)). Qed.

Lemma onlyClears_keeps_cleared st st' n :
  onlyClears st st' -> canBeConstOf n st = Some false -> canBeConstOf n st' = Some false.
Proof.
  intros [_ H]. unfold canBeConstOf. destruct (H n) as [-> | ->]; [done |].
  destruct (Map_get n st); simpl; [done | done].
Qed.

Lemma onlyClears_members st st' n :
  onlyClears st st' -> members <$> Map_get n st' = members <$> Map_get n st.
Proof.
  intros [_ H]. destruct (H n) as [-> | ->]; [done |].
  by destruct (Map_get n st).
Qed.

Lemma fold_cb_onlyClears_all m children (s : EvalState) :
  onlyClears s.2 (fold_left (fun acc child => cb m child acc) children s).2.
Proof.
  apply fold_cb_onlyClears, Forall_forall. intros e _. apply cb_onlyClears.
Qed.

Lemma fold_cb_flag_false m children st :
  (fold_left (fun acc child => cb m child acc) children (false, st)).1 = false.
Proof.
  destruct (fold_left _ _ _).1 eqn:E; [| done].
  apply fold_cb_flag in E; [done |].
  apply Forall_forall. intros e _. apply cb_flag.
Qed.

(** ** Reaching an indexed access *)

(** Every indexed access [E[k]] below an initializer is reached by the
    callback: the subtrees it skips are leaves. *)
Lemma cb_reaches_indexed_access m E k mE e :
  occursIn (ts.ElementAccessExpression (ts.Identifier E) k) e ->
  (isStringLiteralArgument k = false \/
   exists key, k = Some (ts.StringLiteral key) /\ truthy (mE !! Some key) = false) ->
  forall s : EvalState,
    members <$> Map_get E s.2 = Some mE ->
    (cb m e s).1 = false /\
    (isStringLiteralArgument k = false -> canBeConstOf E (cb m e s).2 = Some false).
Proof.
  intros Hocc Hk.
  remember (ts.ElementAccessExpression (ts.Identifier E) k) as x eqn:Hx.
  induction Hocc as [|e name Hocc IH|e name Hname|e a Hocc IH|e a Hocc IH
                     |children child Hin Hocc IH]; intros s HE.
  - (* the access itself *)
    subst x. cbn [cb]. unfold elementAccessGuard, _getEnumInScope.
    destruct (Map_get E s.2) as [track|] eqn:Htrack; [| done].
    injection HE as HmE.
    assert (Hafter : forall st1 : Registry,
               (match k with
                | Some argument => cb m argument (cb m (ts.Identifier E) (false, st1))
                | None => cb m (ts.Identifier E) (false, st1)
                end).1 = false /\
               (canBeConstOf E st1 = Some false ->
                canBeConstOf E
                  (match k with
                   | Some argument => cb m argument (cb m (ts.Identifier E) (false, st1))
                   | None => cb m (ts.Identifier E) (false, st1)
                   end).2 = Some false)).
    { intros st1. cbn [cb]. unfold cbIdentifier.
      assert ((if truthy (m !! Some E) then (false, st1) else (false, (false, st1).2))
              = ((false, st1) : EvalState)) as -> by (by destruct (truthy _)).
      destruct k as [argument|]; [| done].
      split; [apply cb_flag_false |].
      apply onlyClears_keeps_cleared, (cb_onlyClears m argument (false, st1)). }
    destruct Hk as [Hk | (key & -> & Hkey)].
    + assert (Hclear : canBeConstOf E (assign E (set_canBeConst false) s.2) = Some false).
      { rewrite canBeConstOf_assign_clear, decide_True by done.
        unfold canBeConstOf. by rewrite Htrack. }
      destruct k as [[]|]; try discriminate Hk;
        (split; [apply Hafter | intros _; apply Hafter, Hclear]).
    + rewrite HmE, Hkey. split; [apply Hafter | done].
  - (* below the object of a property access *)
    cbn [cb]. destruct (propertyAccessResolved e name s.2) eqn:R.
    + destruct e; try discriminate R. subst x. inversion Hocc.
    + rewrite cbIdentifier_flag, cbIdentifier_registry.
      destruct (IH (false, s.2) HE) as [-> Hc]. done.
  - subst x. discriminate Hname.
  - (* below the object of an indexed access *)
    cbn [cb]. destruct (elementAccessGuard e a s.2) as [st1|] eqn:G.
    + pose proof (elementAccessGuard_onlyClears _ _ _ _ G) as Hst1.
      assert (HE1 : members <$> Map_get E st1 = Some mE)
        by (by rewrite (onlyClears_members _ _ _ Hst1)).
      destruct (IH (false, st1) HE1) as [Hf Hc].
      destruct a as [argument|]; [| done].
      split.
      * destruct (cb m argument _).1 eqn:F; [| done].
        apply cb_flag in F. congruence.
      * intros Hk'. eapply onlyClears_keeps_cleared; [apply cb_onlyClears | by apply Hc].
    + unfold elementAccessGuard in G. destruct e; try discriminate G.
      subst x. inversion Hocc.
  - (* below the index of an indexed access *)
    cbn [cb]. destruct (elementAccessGuard e (Some a) s.2) as [st1|] eqn:G.
    + pose proof (elementAccessGuard_onlyClears _ _ _ _ G) as Hst1.
      apply IH.
      rewrite (onlyClears_members _ _ _ (cb_onlyClears m e (false, st1))).
      by rewrite (onlyClears_members _ _ _ Hst1).
    + unfold elementAccessGuard in G. destruct e; try discriminate G.
      destruct (_getEnumInScope text s.2); [| discriminate G].
      destruct a; try discriminate G. subst x. inversion Hocc.
  - (* below a child of any other node *)
    cbn [cb]. apply in_split in Hin as (l1 & l2 & ->).
    rewrite fold_left_app. cbn [fold_left].
    set (s1 := fold_left (fun acc c => cb m c acc) l1 s).
    assert (HE1 : members <$> Map_get E s1.2 = Some mE).
    { rewrite (onlyClears_members _ _ _ (fold_cb_onlyClears_all m l1 s)). exact HE. }
    destruct (IH s1 HE1) as [Hf Hc].
    destruct (cb m child s1) as [f st2] eqn:Hs2. simpl in Hf, Hc. subst f.
    split; [apply fold_cb_flag_false |].
    intros Hk'. eapply onlyClears_keeps_cleared;
      [apply (fold_cb_onlyClears_all m l2 (false, st2)) | by apply Hc].
Qed.

(** ** The declaration processor, entry by entry *)

Lemma isConstMember_onlyClears track member st :
  onlyClears st (isConstMember track member st).2.
Proof.
  unfold isConstMember. destruct (isConst track); [apply onlyClears_refl |].
  destruct (ts.initializer member);
    [apply _isConstInitializer_onlyClears | apply onlyClears_refl].
Qed.

Lemma visitMember_keys key st member : keys (visitMember key st member) = keys st.
Proof.
  unfold visitMember. destruct (Map_get key st) as [track|]; [| done].
  rewrite !keys_assign. apply isConstMember_onlyClears.
Qed.

Lemma visitMember_other key st member n :
  n ≠ key ->
  Map_get n (visitMember key st member) = Map_get n st \/
  Map_get n (visitMember key st member) = set_canBeConst false <$> Map_get n st.
Proof.
  intros Hne. unfold visitMember. destruct (Map_get key st) as [track|]; [| by left].
  rewrite !Map_get_assign_ne by done.
  apply (isConstMember_onlyClears track member st).
Qed.

Lemma visitMember_own key st member track :
  Map_get key st = Some track ->
  Map_get key (visitMember key st member)
  = Some {| name := name track;
            isConst := isConst track;
            occurences := occurences track;
            members := <[ts.propertyName member := (isConstMember track member st).1]>
                         (members track);
            canBeConst := default false (canBeConstOf key (isConstMember track member st).2)
                          && (isConstMember track member st).1 |}.
Proof.
  intros H. unfold visitMember. rewrite H. rewrite !Map_get_assign_eq.
  unfold canBeConstOf.
  destruct (isConstMember_onlyClears track member st) as [_ Hc].
  destruct (Hc key) as [-> | ->]; rewrite H; reflexivity.
Qed.

Lemma fold_visitMember_keys key ms : forall st,
  keys (fold_left (visitMember key) ms st) = keys st.
Proof.
  induction ms as [|m ms IH]; intros st; simpl; [done |].
  by rewrite IH, visitMember_keys.
Qed.

Lemma fold_visitMember_other key n ms : forall st,
  n ≠ key ->
  Map_get n (fold_left (visitMember key) ms st) = Map_get n st \/
  Map_get n (fold_left (visitMember key) ms st) = set_canBeConst false <$> Map_get n st.
Proof.
  induction ms as [|m ms IH]; intros st Hne; simpl; [by left |].
  destruct (IH (visitMember key st m) Hne) as [-> | ->];
    destruct (visitMember_other key st m n Hne) as [-> | ->]; auto.
  right. by destruct (Map_get n st).
Qed.

Lemma fold_visitMember_own key ms : forall st track,
  Map_get key st = Some track ->
  exists track',
    Map_get key (fold_left (visitMember key) ms st) = Some track' /\
    name track' = name track /\
    isConst track' = isConst track /\
    occurences track' = occurences track /\
    dom (members track') = dom (members track) ∪ list_to_set (ts.propertyName <$> ms) /\
    (canBeConst track' = true -> canBeConst track = true).
Proof.
  induction ms as [|m ms IH]; intros st track H; simpl.
  - exists track. repeat split; try done.
    simpl. by rewrite (right_id_L ∅ (∪)).
  - pose proof (visitMember_own key st m track H) as H1.
    destruct (IH _ _ H1) as (track' & Hget & Hn & Hi & Ho & Hd & Hc).
    exists track'. simpl in *. repeat split; try done.
    + rewrite Hd, dom_insert_L.
      rewrite (comm_L (∪) {[ts.propertyName m]} (dom (members track))).
      rewrite <- (assoc_L (∪)). reflexivity.
    + intros Hc'. apply Hc in Hc'. apply andb_true_iff in Hc' as [Hc' _].
      unfold canBeConstOf in Hc'.
      destruct (isConstMember_onlyClears track m st) as [_ Hoc].
      destruct (Hoc key) as [E | E]; rewrite E, H in Hc'; simpl in Hc'; done.
Qed.

Lemma _addEnum_own node st :
  Map_get (ts.name node) (_addEnum node st)
  = Some match Map_get (ts.name node) st with
         | Some t => set_occurences (occurences t ++ [node]) t
         | None => {| name := ts.name node;
                      isConst := Lint.hasModifier (ts.modifiers node) ts.ConstKeyword;
                      occurences := [node];
                      members := ∅;
                      canBeConst := true |}
         end.
Proof.
  unfold _addEnum. rewrite Map_get_assign_eq.
  destruct (Map_get (ts.name node) st) as [t|] eqn:E.
  - by rewrite E.
  - by rewrite Map_get_set_eq.
Qed.

(** The entry [_addEnum] has registered is there all along the member
    loop. *)
Lemma visitMember_tracked node ms st :
  is_Some (Map_get (ts.name node)
             (fold_left (visitMember (ts.name node)) ms (_addEnum node st))).
Proof.
  destruct (fold_visitMember_own (ts.name node) ms _ _ (_addEnum_own node st))
    as (track & H & _).
  by exists track.
Qed.

Lemma _addEnum_other node st n :
  n ≠ ts.name node -> Map_get n (_addEnum node st) = Map_get n st.
Proof.
  intros Hne. unfold _addEnum. rewrite Map_get_assign_ne by done.
  destruct (Map_get (ts.name node) st); [done |].
  by apply Map_get_set_ne.
Qed.

Lemma _addEnum_keys node st :
  keys (_addEnum node st)
  = match Map_get (ts.name node) st with
    | Some _ => keys st
    | None => keys st ++ [ts.name node]
    end.
Proof.
  unfold _addEnum. rewrite keys_assign.
  destruct (Map_get (ts.name node) st) eqn:E; [done |].
  by apply keys_Map_set_absent.
Qed.

Lemma visitEnumDeclaration_keys node st :
  keys (visitEnumDeclaration node st) = keys (_addEnum node st).
Proof.
  unfold visitEnumDeclaration. by rewrite keys_assign, fold_visitMember_keys.
Qed.

Lemma visitEnumDeclaration_other node st n :
  n ≠ ts.name node ->
  Map_get n (visitEnumDeclaration node st) = Map_get n st \/
  Map_get n (visitEnumDeclaration node st) = set_canBeConst false <$> Map_get n st.
Proof.
  intros Hne. unfold visitEnumDeclaration. rewrite Map_get_assign_ne by done.
  destruct (fold_visitMember_other (ts.name node) n (ts.members node)
              (_addEnum node st) Hne) as [-> | ->];
    rewrite _addEnum_other by done; auto.
Qed.

(** The entry of the declared name after [visitEnumDeclaration]. *)
Lemma visitEnumDeclaration_own node st :
  exists track',
    Map_get (ts.name node) (visitEnumDeclaration node st) = Some track' /\
    isConst track' = match Map_get (ts.name node) st with
                     | Some t => isConst t
                     | None => Lint.hasModifier (ts.modifiers node) ts.ConstKeyword
                     end /\
    occurences track' = occurencesOf (ts.name node) st ++ [node] /\
    dom (members track') = dom (membersOf (ts.name node) st) ∪ declaredNames node /\
    (canBeConst track' = true ->
       Lint.hasModifier (ts.modifiers node) ts.ExportKeyword = false /\
       canBeConstOf (ts.name node) st ≠ Some false).
Proof.
  unfold visitEnumDeclaration. rewrite Map_get_assign_eq.
  destruct (fold_visitMember_own (ts.name node) (ts.members node) _ _
              (_addEnum_own node st))
    as (track' & -> & Hn & Hi & Ho & Hd & Hc).
  eexists. split; [reflexivity |]. simpl.
  unfold occurencesOf, membersOf, canBeConstOf, declaredNames.
  destruct (Map_get (ts.name node) st) as [t|] eqn:E; simpl in *.
  all: split; [done|]. all: split; [done|]. all: split; [done|].
  all: intros [Hc' Hx]%andb_true_iff; apply negb_true_iff in Hx; (split; [done |]).
  - apply Hc in Hc'. by rewrite Hc'.
  - done.
Qed.

(** ** The registry along the walk *)

Lemma downward_refl st : downward st st.
Proof. intros n b H. by left. Qed.

Lemma downward_trans st1 st2 st3 :
  downward st1 st2 -> downward st2 st3 -> downward st1 st3.
Proof.
  intros H12 H23 n b H.
  destruct (H12 n b H) as [H2 | H2]; destruct (H23 n _ H2) as [H3 | H3]; auto.
Qed.

Lemma named_app n ds1 ds2 : named n (ds1 ++ ds2) = named n ds1 ++ named n ds2.
Proof. unfold named. apply filter_app. Qed.

Lemma onlyClears_occurencesOf st st' n :
  onlyClears st st' -> occurencesOf n st' = occurencesOf n st.
Proof.
  intros [_ H]. unfold occurencesOf. destruct (H n) as [-> | ->]; [done |].
  by destruct (Map_get n st).
Qed.

Lemma onlyClears_membersOf st st' n :
  onlyClears st st' -> membersOf n st' = membersOf n st.
Proof.
  intros H. unfold membersOf. by rewrite (onlyClears_members _ _ _ H).
Qed.

Lemma onlyClears_downward st st' : onlyClears st st' -> downward st st'.
Proof.
  intros [_ H] n b. unfold canBeConstOf. destruct (H n) as [-> | ->]; [by left |].
  destruct (Map_get n st); [| done]. by right.
Qed.

Lemma onlyClears_walked st st' : onlyClears st st' -> walked [] st st'.
Proof.
  intros H. split.
  - destruct H as [-> _]. done.
  - by apply onlyClears_downward.
  - intros n t Ht. destruct H as [_ H]. destruct (H n) as [-> | ->]; by rewrite Ht.
  - intros n. rewrite (onlyClears_occurencesOf _ _ _ H). by rewrite app_nil_r.
  - intros n. rewrite (onlyClears_membersOf _ _ _ H). simpl. by rewrite (right_id_L ∅ (∪)).
  - intros d Hd. by apply elem_of_nil in Hd.
Qed.

Lemma walked_refl st : walked [] st st.
Proof. apply onlyClears_walked, onlyClears_refl. Qed.

Lemma walked_trans ds1 ds2 st1 st2 st3 :
  walked ds1 st1 st2 -> walked ds2 st2 st3 -> walked (ds1 ++ ds2) st1 st3.
Proof.
  intros H12 H23. split.
  - intros H. by apply H23, H12.
  - eapply downward_trans; [apply H12 | apply H23].
  - intros n t Ht.
    pose proof (walked_isConst _ _ _ H12 n t Ht) as H2.
    destruct (Map_get n st2) as [t2|] eqn:E2; [| done].
    injection H2 as <-. by apply (walked_isConst _ _ _ H23).
  - intros n. rewrite (walked_occurences _ _ _ H23), (walked_occurences _ _ _ H12).
    by rewrite named_app, app_assoc.
  - intros n. rewrite (walked_members _ _ _ H23), (walked_members _ _ _ H12).
    by rewrite named_app, fmap_app, union_list_app_L, (assoc_L (∪)).
  - intros d [Hd | Hd]%elem_of_app Hx.
    + pose proof (walked_export _ _ _ H12 d Hd Hx) as H2.
      destruct (walked_downward _ _ _ H23 _ _ H2); done.
    + by apply (walked_export _ _ _ H23).
Qed.

Lemma _checkUsage_onlyClears parent b text st :
  onlyClears st (_checkUsage parent b text st).
Proof.
  unfold _checkUsage. destruct (_ || _); [apply onlyClears_refl |].
  destruct (_getEnumInScope text st); [apply onlyClears_assign | apply onlyClears_refl].
Qed.

Lemma named_singleton n d :
  named n [d] = if decide (ts.name d = n) then [d] else [].
Proof.
  unfold named. rewrite filter_cons, filter_nil. by destruct (decide _).
Qed.

Lemma visitEnumDeclaration_walked d st : walked [d] st (visitEnumDeclaration d st).
Proof.
  destruct (visitEnumDeclaration_own d st) as (track' & Hget & Hi & Ho & Hd & Hc).
  pose proof (visitEnumDeclaration_other d st) as Hother.
  split.
  - rewrite visitEnumDeclaration_keys, _addEnum_keys.
    destruct (Map_get (ts.name d) st) eqn:E; [done |].
    intros HN. apply NoDup_app. split; [done |]. split.
    + intros x Hx ->%list_elem_of_singleton. by apply Map_get_None_keys in E.
    + apply NoDup_singleton.
  - intros n b Hb. destruct (decide (n = ts.name d)) as [-> | Hne].
    + assert (canBeConstOf (ts.name d) (visitEnumDeclaration d st)
              = Some (canBeConst track')) as ->
        by (unfold canBeConstOf; by rewrite Hget).
      destruct (canBeConst track') eqn:C; [| by right].
      left. destruct (Hc eq_refl) as [_ Hc']. destruct b; [done | congruence].
    + unfold canBeConstOf in *.
      destruct (Hother n Hne) as [-> | ->]; [by left |].
      destruct (Map_get n st); [by right | done].
  - intros n t Ht. destruct (decide (n = ts.name d)) as [-> | Hne].
    + rewrite Hget. simpl. by rewrite Hi, Ht.
    + destruct (Hother n Hne) as [-> | ->]; by rewrite Ht.
  - intros n. rewrite named_singleton.
    destruct (decide (ts.name d = n)) as [<- | Hne].
    + unfold occurencesOf at 1. by rewrite Hget.
    + rewrite app_nil_r. unfold occurencesOf.
      destruct (Hother n (not_eq_sym Hne)) as [-> | ->]; [done |].
      by destruct (Map_get n st).
  - intros n. rewrite named_singleton.
    destruct (decide (ts.name d = n)) as [<- | Hne].
    + unfold membersOf at 1. rewrite Hget. simpl.
      by rewrite Hd, (right_id_L ∅ (∪)).
    + simpl. rewrite (right_id_L ∅ (∪)). unfold membersOf.
      destruct (Hother n (not_eq_sym Hne)) as [-> | ->]; [done |].
      by destruct (Map_get n st).
  - intros d' ->%list_elem_of_singleton Hx.
    unfold canBeConstOf. rewrite Hget. simpl.
    destruct (canBeConst track'); [| done].
    destruct (Hc eq_refl) as [Hc' _]. congruence.
Qed.

Lemma walkChildren_walked parent children :
  Forall (fun node => forall parent b st,
            walked (declarationsOf node) st (walkCb parent b node st)) children ->
  forall st, walked (flat_map declarationsOf children) st (walkChildren parent children st).
Proof.
  unfold walkChildren.
  induction 1 as [|node l Hnode Hl IH]; intros st; simpl.
  - apply walked_refl.
  - eapply walked_trans; [apply Hnode | apply IH].
Qed.

Lemma walkCb_walked node : forall parent b st,
  walked (declarationsOf node) st (walkCb parent b node st).
Proof.
  induction node as [text|text|e name IH|e a IHe IHa|e IH|d|children IH]
    using Node_nested_ind; intros parent b st; cbn [walkCb declarationsOf].
  - apply onlyClears_walked, _checkUsage_onlyClears.
  - apply walked_refl.
  - rewrite <- (app_nil_r (declarationsOf e)).
    eapply walked_trans; [apply IH |].
    apply onlyClears_walked, _checkUsage_onlyClears.
  - destruct a as [argument|]; simpl in IHa.
    + eapply walked_trans; [apply IHe | apply IHa].
    + rewrite app_nil_r. apply IHe.
  - apply IH.
  - apply visitEnumDeclaration_walked.
  - by apply (walkChildren_walked (ts.OtherNode children)).
Qed.

Lemma traverse_walked sourceFile :
  walked (declarations sourceFile) [] (traverse sourceFile).
Proof.
  apply (walkChildren_walked (ts.sourceFileNode sourceFile)).
  apply Forall_forall. intros node _. apply walkCb_walked.
Qed.

(** ** Every operation goes downward *)

Lemma _addEnum_downward node st : downward st (_addEnum node st).
Proof.
  intros n b. unfold canBeConstOf. destruct (decide (n = ts.name node)) as [-> | Hne].
  - rewrite _addEnum_own. destruct (Map_get (ts.name node) st); [| done].
    simpl. by left.
  - rewrite _addEnum_other by done. by left.
Qed.

Lemma visitMember_downward key st member : downward st (visitMember key st member).
Proof.
  intros n b. unfold canBeConstOf. destruct (decide (n = key)) as [-> | Hne].
  - destruct (Map_get key st) as [track|] eqn:E; [| done].
    rewrite (visitMember_own _ _ _ _ E). simpl. intros [= <-].
    destruct (isConstMember_onlyClears track member st) as [_ H].
    unfold canBeConstOf. destruct (H key) as [-> | ->]; rewrite E; simpl.
    + destruct (canBeConst track), (isConstMember track member st).1; auto.
    + by right.
  - destruct (visitMember_other key st member n Hne) as [-> | ->]; [by left |].
    destruct (Map_get n st); [by right | done].
Qed.

Lemma perform_downward op st : downward st (perform op st).
Proof.
  destruct op; cbn [perform].
  - apply _addEnum_downward.
  - apply visitMember_downward.
  - apply (walked_downward _ _ _ (visitEnumDeclaration_walked node st)).
  - apply onlyClears_downward, _checkUsage_onlyClears.
  - apply onlyClears_downward, _isConstInitializer_onlyClears.
  - apply (walked_downward _ _ _ (walkCb_walked node parent isExpressionOfParent st)).
  - eapply walked_downward, walkChildren_walked.
    apply Forall_forall. intros x _. apply walkCb_walked.
Qed.

(** A cleared flag stays cleared through any sequence of operations. *)
Lemma perform_all_keeps_cleared ops : forall st n,
  canBeConstOf n st = Some false ->
  canBeConstOf n (fold_left (fun acc op => perform op acc) ops st) = Some false.
Proof.
  induction ops as [|op ops IH]; intros st n H; simpl; [done |].
  apply IH. by destruct (perform_downward op st n false H).
Qed.

(** ** The report loop *)

Lemma report_occurences occs : forall failures,
  fold_left (fun acc occurence => reportOccurence occurence acc) occs failures
  = failures ++ map expectedFinding occs.
Proof.
  induction occs as [|o occs IH]; intros failures; simpl.
  - by rewrite app_nil_r.
  - rewrite IH. unfold reportOccurence. by rewrite <- app_assoc.
Qed.

Lemma report_from st : forall failures,
  fold_left
    (fun failures (entry : string * IEnum) =>
       let track := entry.2 in
       if negb (isConst track) && canBeConst track
       then fold_left (fun acc occurence => reportOccurence occurence acc)
                      (occurences track) failures
       else failures)
    st failures
  = failures ++ flat_map (fun entry : string * IEnum => expectedFindings entry.2) st.
Proof.
  induction st as [|[k track] st IH]; intros failures; simpl.
  - by rewrite app_nil_r.
  - rewrite IH. unfold expectedFindings.
    destruct (isConst track), (canBeConst track); simpl;
      rewrite ?report_occurences, ?app_nil_r, <- ?app_assoc; done.
Qed.

(** ** Recorded member values *)

Lemma visitMember_lookup key st member track k :
  Map_get key st = Some track ->
  k ≠ ts.propertyName member ->
  membersOf key (visitMember key st member) !! k = members track !! k.
Proof.
  intros H Hk. unfold membersOf. rewrite (visitMember_own _ _ _ _ H). simpl.
  by rewrite lookup_insert_ne.
Qed.

Lemma fold_visitMember_lookup key ms k : forall st track,
  Map_get key st = Some track ->
  k ∉ ts.propertyName <$> ms ->
  membersOf key (fold_left (visitMember key) ms st) !! k = members track !! k.
Proof.
  induction ms as [|m ms IH]; intros st track H Hk; simpl.
  - unfold membersOf. by rewrite H.
  - rewrite fmap_cons in Hk. apply not_elem_of_cons in Hk as [Hk1 Hk2].
    rewrite (IH _ _ (visitMember_own _ _ _ _ H) Hk2). simpl.
    by rewrite lookup_insert_ne.
Qed.

(** A declaration leaves the recorded value of every member it does not
    declare itself as it was. *)
Lemma visitEnumDeclaration_lookup node st k :
  k ∉ declaredNames node ->
  membersOf (ts.name node) (visitEnumDeclaration node st) !! k
  = membersOf (ts.name node) st !! k.
Proof.
  intros Hk. unfold declaredNames in Hk. rewrite elem_of_list_to_set in Hk.
  unfold visitEnumDeclaration.
  assert (forall f st0, membersOf (ts.name node)
                          (assign (ts.name node) (fun t => set_canBeConst (f t) t) st0)
                        = membersOf (ts.name node) st0) as ->.
  { intros f st0. unfold membersOf. rewrite Map_get_assign_eq.
    by destruct (Map_get (ts.name node) st0). }
  rewrite (fold_visitMember_lookup _ _ _ _ _ (_addEnum_own node st) Hk).
  unfold membersOf. destruct (Map_get (ts.name node) st); done.
Qed.

(** ** The identifier case *)

Lemma _isConstInitializer_Identifier text ms st :
  _isConstInitializer (ts.Identifier text) ms st = (truthy (ms !! Some text), st).
Proof.
  unfold _isConstInitializer. cbn [cb]. unfold cbIdentifier.
  by destruct (truthy _).
Qed.

Lemma isConstMember_Identifier track member text st :
  ts.initializer member = Some (ts.Identifier text) ->
  isConstMember track member st
  = (isConst track || truthy (members track !! Some text), st).
Proof.
  intros H. unfold isConstMember. rewrite H, _isConstInitializer_Identifier.
  by destruct (isConst track).
Qed.

(** ** Entries the evaluator does not touch *)

Lemma elementAccessGuard_untouched n e a st st' :
  isIdentifierNamed n e && negb (isStringLiteralArgument a) = false ->
  elementAccessGuard e a st = Some st' ->
  Map_get n st' = Map_get n st.
Proof.
  unfold elementAccessGuard. intros Hn H.
  destruct e; try (by injection H as <-).
  destruct (_getEnumInScope text st); [| by injection H as <-].
  simpl in Hn.
  assert (Hclear : isStringLiteralArgument a = false ->
                   Map_get n (assign text (set_canBeConst false) st) = Map_get n st).
  { intros Ha. rewrite Ha, andb_true_r in Hn. apply bool_decide_eq_false in Hn.
    by apply Map_get_assign_ne. }
  destruct a as [[]|]; try (injection H as <-; by apply Hclear).
  destruct (truthy _); [done | by injection H as <-].
Qed.

Lemma fold_cb_untouched n m children :
  Forall (fun e => indexesDynamically n e = false ->
                   forall s : EvalState, Map_get n (cb m e s).2 = Map_get n s.2) children ->
  existsb (indexesDynamically n) children = false ->
  forall s : EvalState,
    Map_get n (fold_left (fun acc child => cb m child acc) children s).2 = Map_get n s.2.
Proof.
  induction 1 as [|e l He Hl IH]; intros Hex s; simpl; [done |].
  simpl in Hex. apply orb_false_iff in Hex as [H1 H2].
  by rewrite IH, He.
Qed.

Lemma cb_untouched n m e :
  indexesDynamically n e = false ->
  forall s : EvalState, Map_get n (cb m e s).2 = Map_get n s.2.
Proof.
  induction e as [text|text|e name IH|e a IHe IHa|children IH]
    using Expression_nested_ind; cbn [cb indexesDynamically]; intros Hn s.
  - by rewrite cbIdentifier_registry.
  - done.
  - destruct (propertyAccessResolved e name s.2); [done |].
    rewrite cbIdentifier_registry. by rewrite IH.
  - apply orb_false_iff in Hn as [Hn Ha]. apply orb_false_iff in Hn as [Hn He].
    destruct (elementAccessGuard e a s.2) as [st|] eqn:G; [| done].
    apply (elementAccessGuard_untouched n) in G; [| done].
    destruct a as [argument|]; simpl in IHa.
    + by rewrite IHa, IHe.
    + by rewrite IHe.
  - by apply fold_cb_untouched.
Qed.

Lemma visitMember_untouched key st member n :
  n ≠ key ->
  match ts.initializer member with
  | Some e => indexesDynamically n e
  | None => false
  end = false ->
  Map_get n (visitMember key st member) = Map_get n st.
Proof.
  intros Hne Hn. unfold visitMember. destruct (Map_get key st) as [track|]; [| done].
  rewrite !Map_get_assign_ne by done. unfold isConstMember.
  destruct (isConst track); [done |].
  destruct (ts.initializer member) as [e|]; [| done].
  by apply (cb_untouched n (members track) e Hn (true, st)).
Qed.

Lemma visitEnumDeclaration_untouched node st n :
  n ≠ ts.name node ->
  declarationIndexesDynamically n node = false ->
  Map_get n (visitEnumDeclaration node st) = Map_get n st.
Proof.
  intros Hne Hn. unfold visitEnumDeclaration, declarationIndexesDynamically in *.
  rewrite Map_get_assign_ne by done.
  rewrite <- (_addEnum_other node st n Hne).
  generalize (_addEnum node st). induction (ts.members node) as [|m ms IH]; intros st0.
  - done.
  - simpl in *. apply orb_false_iff in Hn as [H1 H2].
    by rewrite IH, visitMember_untouched.
Qed.

(** ** Enums that stay eligible *)

Lemma walk_expected sourceFile :
  walk sourceFile
  = flat_map (fun entry : string * IEnum => expectedFindings entry.2) (traverse sourceFile).
Proof. unfold walk, report. by rewrite report_from. Qed.

Lemma fold_visitMember_plain key ms : forall st track,
  forallb (fun member => match ts.initializer member with
                         | None => true
                         | Some _ => false
                         end) ms = true ->
  Map_get key st = Some track ->
  exists track',
    Map_get key (fold_left (visitMember key) ms st) = Some track' /\
    isConst track' = isConst track /\
    canBeConst track' = canBeConst track.
Proof.
  induction ms as [|m ms IH]; intros st track Hplain H; simpl.
  - by exists track.
  - simpl in Hplain. apply andb_true_iff in Hplain as [Hm Hms].
    pose proof (visitMember_own key st m track H) as Hown.
    assert (Hv : isConstMember track m st = (true, st)).
    { unfold isConstMember. destruct (isConst track); [done |].
      by destruct (ts.initializer m). }
    rewrite Hv in Hown. cbn [fst snd] in Hown.
    unfold canBeConstOf in Hown. rewrite H in Hown. simpl in Hown.
    rewrite andb_true_r in Hown.
    destruct (IH _ _ Hms Hown) as (track' & Hget & Hi & Hc).
    by exists track'.
Qed.

Lemma visitEnumDeclaration_plain node st :
  plainDeclaration node = true ->
  eligible (ts.name node) st ->
  eligible (ts.name node) (visitEnumDeclaration node st).
Proof.
  unfold plainDeclaration. intros [[Hm Hx]%andb_true_iff Hc]%andb_true_iff Hst.
  apply negb_true_iff in Hx, Hc.
  unfold visitEnumDeclaration, eligible. rewrite Map_get_assign_eq.
  destruct (fold_visitMember_plain _ _ _ _ Hm (_addEnum_own node st))
    as (track' & -> & Hi & Hcb).
  simpl. intros t [= <-]. simpl. rewrite Hi, Hcb, Hx, andb_true_r.
  destruct (Map_get (ts.name node) st) as [t0|] eqn:E; simpl; [| done].
  by apply Hst.
Qed.

Lemma _checkUsage_eligible n parent b text st :
  bool_decide (text = n) && negb (usageExempt parent b) = false ->
  Map_get n (_checkUsage parent b text st) = Map_get n st.
Proof.
  unfold _checkUsage, usageExempt. intros H.
  destruct (_ || _); [done |].
  rewrite andb_true_r in H. apply bool_decide_eq_false in H.
  destruct (_getEnumInScope text st); [| done].
  by apply Map_get_assign_ne.
Qed.

Lemma _checkUsage_name_of_property_access e name text st :
  _checkUsage (ts.PropertyAccessNode e name) false text st = st.
Proof. done. Qed.

Lemma walkChildren_eligible n parent children :
  Forall (fun node => forall parent b st,
            disqualifies n parent b node = false ->
            Forall (fun d => plainDeclaration d = true) (named n (declarationsOf node)) ->
            eligible n st -> eligible n (walkCb parent b node st)) children ->
  existsb (disqualifies n parent false) children = false ->
  Forall (fun d => plainDeclaration d = true) (named n (flat_map declarationsOf children)) ->
  forall st, eligible n st ->
             eligible n (fold_left (fun acc child => walkCb parent false child acc) children st).
Proof.
  induction 1 as [|node l Hnode Hl IH]; intros Hd Hp st Hst; simpl; [done |].
  simpl in Hd, Hp. apply orb_false_iff in Hd as [Hd1 Hd2].
  rewrite named_app in Hp. apply Forall_app in Hp as [Hp1 Hp2].
  apply IH; [done | done |]. by apply Hnode.
Qed.

Lemma walkCb_eligible n node : forall parent b st,
  disqualifies n parent b node = false ->
  Forall (fun d => plainDeclaration d = true) (named n (declarationsOf node)) ->
  eligible n st -> eligible n (walkCb parent b node st).
Proof.
  induction node as [text|text|e name IH|e a IHe IHa|e IH|d|children IH]
    using Node_nested_ind; intros parent b st; cbn [walkCb declarationsOf disqualifies];
    intros Hd Hp Hst.
  - unfold eligible. by rewrite _checkUsage_eligible.
  - done.
  - rewrite _checkUsage_name_of_property_access. by apply IH.
  - apply orb_false_iff in Hd as [Hd1 Hd2].
    rewrite named_app in Hp. apply Forall_app in Hp as [Hp1 Hp2].
    destruct a as [argument|]; simpl in IHa.
    + apply IHa; [done | done |]. by apply IHe.
    + by apply IHe.
  - by apply IH.
  - rewrite named_singleton in Hp. destruct (decide (ts.name d = n)) as [<- | Hne].
    + apply visitEnumDeclaration_plain; [| exact Hst].
      rewrite Forall_singleton in Hp. exact Hp.
    + unfold eligible. by rewrite visitEnumDeclaration_untouched.
  - by apply walkChildren_eligible.
Qed.

(** ** Enough depth gives the result *)

Lemma maxOver_le {A : Type} (f : A -> nat) (l : list A) (x : A) :
  x ∈ l -> (f x <= maxOver f l)%nat.
Proof.
  induction 1 as [x l | x y l Hin IH]; simpl; lia.
Qed.

Lemma maxOver_cons {A : Type} (f : A -> nat) (x : A) (l : list A) :
  maxOver f (x :: l) = Nat.max (f x) (maxOver f l).
Proof. reflexivity. Qed.

Lemma fold_cbWithin depth ms children :
  Forall (fun e => forall (d : nat) (s : EvalState),
            (expressionDepth e <= d)%nat -> cbWithin d ms e s = Some (cb ms e s)) children ->
  (maxOver expressionDepth children <= depth)%nat ->
  forall s : EvalState,
    fold_left (fun acc child => acc ≫= cbWithin depth ms child) children (Some s)
    = Some (fold_left (fun acc child => cb ms child acc) children s).
Proof.
  induction 1 as [|e l He Hl IH]; intros Hd s; [done |].
  rewrite maxOver_cons in Hd. cbn [fold_left]. simpl mbind.
  rewrite He by lia. apply IH. lia.
Qed.

Lemma cbWithin_complete ms e : forall (depth : nat) (s : EvalState),
  (expressionDepth e <= depth)%nat -> cbWithin depth ms e s = Some (cb ms e s).
Proof.
  induction e as [text|text|e name IH|e a IHe IHa|children IH]
    using Expression_nested_ind; intros depth s Hd;
    (destruct depth as [|depth]; [simpl in Hd; lia |]);
    cbn [cbWithin cb expressionDepth] in *.
  - done.
  - done.
  - destruct (propertyAccessResolved e name s.2); [done |].
    rewrite IH by lia. simpl.
    assert (1 <= expressionDepth e)%nat by (destruct e; simpl; lia).
    destruct depth as [|depth]; [lia | done].
  - destruct (elementAccessGuard e a s.2) as [st|]; [| done].
    rewrite IHe by lia. simpl. destruct a as [argument|]; [| done].
    apply IHa. lia.
  - apply fold_cbWithin; [done | lia].
Qed.

Lemma isConstMemberWithin_complete depth track member st :
  (match ts.initializer member with Some e => expressionDepth e | None => O end
   <= depth)%nat ->
  isConstMemberWithin depth track member st = Some (isConstMember track member st).
Proof.
  intros Hd. unfold isConstMemberWithin, isConstMember.
  destruct (isConst track); [done |].
  destruct (ts.initializer member) as [e|]; [| done].
  by apply cbWithin_complete.
Qed.

Lemma visitMemberWithin_complete depth key st member :
  (match ts.initializer member with Some e => expressionDepth e | None => O end
   <= depth)%nat ->
  visitMemberWithin depth key st member = Some (visitMember key st member).
Proof.
  intros Hd. unfold visitMemberWithin, visitMember.
  destruct (Map_get key st) as [track|]; [| done].
  by rewrite isConstMemberWithin_complete.
Qed.

Lemma visitEnumDeclarationWithin_complete depth node st :
  (declarationDepth node <= depth)%nat ->
  visitEnumDeclarationWithin depth node st = Some (visitEnumDeclaration node st).
Proof.
  unfold visitEnumDeclarationWithin, visitEnumDeclaration, declarationDepth.
  generalize (_addEnum node st). induction (ts.members node) as [|m ms IH]; intros st1 Hd.
  - done.
  - rewrite maxOver_cons in Hd. cbn [fold_left]. simpl mbind.
    rewrite visitMemberWithin_complete by lia. apply IH. lia.
Qed.

Lemma fold_walkCbWithin depth parent children :
  Forall (fun node => forall (d : nat) parent b st,
            (nodeDepth node <= d)%nat ->
            walkCbWithin d parent b node st = Some (walkCb parent b node st)) children ->
  (maxOver nodeDepth children <= depth)%nat ->
  forall st,
    fold_left (fun acc child => acc ≫= walkCbWithin depth parent false child)
              children (Some st)
    = Some (fold_left (fun acc child => walkCb parent false child acc) children st).
Proof.
  induction 1 as [|node l Hnode Hl IH]; intros Hd st; [done |].
  rewrite maxOver_cons in Hd. cbn [fold_left]. simpl mbind.
  rewrite Hnode by lia. apply IH. lia.
Qed.

Lemma walkCbWithin_complete node : forall (depth : nat) parent b st,
  (nodeDepth node <= depth)%nat ->
  walkCbWithin depth parent b node st = Some (walkCb parent b node st).
Proof.
  induction node as [text|text|e name IH|e a IHe IHa|e IH|d|children IH]
    using Node_nested_ind; intros depth parent b st Hd;
    (destruct depth as [|depth]; [simpl in Hd; lia |]);
    cbn [walkCbWithin walkCb nodeDepth] in *.
  - done.
  - done.
  - rewrite IH by lia. simpl.
    assert (1 <= nodeDepth e)%nat by (destruct e; simpl; lia).
    destruct depth as [|depth]; [lia | done].
  - rewrite IHe by lia. simpl. destruct a as [argument|]; [| done].
    apply IHa. lia.
  - apply IH. lia.
  - apply visitEnumDeclarationWithin_complete. lia.
  - apply fold_walkCbWithin; [done | lia].
Qed.

Lemma walkWithin_complete depth sourceFile :
  (sourceFileDepth sourceFile <= depth)%nat ->
  walkWithin depth sourceFile = Some (walk sourceFile).
Proof.
  intros Hd. unfold walkWithin, walk, traverse.
  rewrite fold_walkCbWithin; [done | | done].
  apply Forall_forall. intros node _. apply walkCbWithin_complete.
Qed.

(** ** The verdict depends on the shape only *)

Lemma propertyAccessResolved_onlyClears e name st st' :
  onlyClears st st' ->
  propertyAccessResolved e name st' = propertyAccessResolved e name st.
Proof.
  intros H. unfold propertyAccessResolved, _getEnumInScope. destruct e; try done.
  pose proof (onlyClears_members _ _ text H) as Hm.
  destruct (Map_get text st'), (Map_get text st); simpl in Hm; try done.
  by injection Hm as ->.
Qed.

Lemma elementAccessGuard_onlyClears_None e a st st' :
  onlyClears st st' ->
  elementAccessGuard e a st' = None <-> elementAccessGuard e a st = None.
Proof.
  intros H. unfold elementAccessGuard, _getEnumInScope. destruct e; try done.
  pose proof (onlyClears_members _ _ text H) as Hm.
  destruct (Map_get text st') as [t'|], (Map_get text st) as [t|];
    simpl in Hm; try done.
  injection Hm as Hm.
  destruct a as [[]|]; try (split; intros Hnone; discriminate Hnone).
  rewrite Hm. destruct (truthy _); [done | split; intros Hnone; discriminate Hnone].
Qed.

Lemma fold_cb_constantShape ms st children :
  Forall (fun e => forall s : EvalState,
            onlyClears st s.2 -> (cb ms e s).1 = s.1 && constantShape ms st e) children ->
  forall s : EvalState,
    onlyClears st s.2 ->
    (fold_left (fun acc child => cb ms child acc) children s).1
    = s.1 && forallb (constantShape ms st) children.
Proof.
  induction 1 as [|e l He Hl IH]; intros s Hs; simpl.
  - by rewrite andb_true_r.
  - rewrite IH.
    + rewrite He by done. by rewrite andb_assoc.
    + eapply onlyClears_trans; [exact Hs | apply cb_onlyClears].
Qed.

(** The flag after the callback is the flag before it, cleared exactly
    when the shape is not constant, whatever the evaluation has cleared in
    the registry meanwhile. *)
Lemma cb_constantShape ms st e : forall s : EvalState,
  onlyClears st s.2 -> (cb ms e s).1 = s.1 && constantShape ms st e.
Proof.
  induction e as [text|text|e name IH|e a IHe IHa|children IH]
    using Expression_nested_ind; intros s Hs; cbn [cb constantShape].
  - apply cbIdentifier_flag.
  - by rewrite andb_true_r.
  - rewrite (propertyAccessResolved_onlyClears _ _ _ _ Hs).
    destruct (propertyAccessResolved e name st); [by rewrite andb_true_r |].
    rewrite cbIdentifier_flag, cb_flag_false. by rewrite andb_false_r.
  - pose proof (elementAccessGuard_onlyClears_None e a _ _ Hs) as Hg.
    destruct (elementAccessGuard e a s.2) as [st1|];
      destruct (elementAccessGuard e a st) as [st2|];
      try (by rewrite andb_true_r);
      try (by (destruct Hg as [Hg1 Hg2]; first [discriminate (Hg1 eq_refl)
                                               | discriminate (Hg2 eq_refl)])).
    rewrite andb_false_r. destruct a as [argument|]; [| apply cb_flag_false].
    destruct (cb ms e (false, st1)) as [f st3] eqn:E1.
    assert (f = false) as -> by (rewrite <- (cb_flag_false ms e st1); by rewrite E1).
    apply cb_flag_false.
  - by apply fold_cb_constantShape.
Qed.

Lemma _isConstInitializer_constantShape e ms st :
  (_isConstInitializer e ms st).1 = constantShape ms st e.
Proof.
  unfold _isConstInitializer.
  by rewrite (cb_constantShape ms st e (true, st) (onlyClears_refl st)).
Qed.

(** * The claims *)

(** ** C1: indexed access inside an initializer *)

(** C1, as stated, fails: in [enum A { X = 1 }  enum B { Y = A["Z"] }] the
    index of [A["Z"]] is a string literal that names no member of [A]; the
    initializer is judged non-constant, but [A] keeps [canBeConst], both
    right after the evaluation and at the end of the run. *)
Lemma C1_counterexample :
  occursIn access_A_Z access_A_Z /\
  is_Some (_getEnumInScope "A" registry_A) /\
  membersOf "A" registry_A !! Some "Z" = None /\
  canBeConstOf "A" registry_A = Some true /\
  _isConstInitializer access_A_Z ∅ registry_A = (false, registry_A) /\
  canBeConstOf "A" (traverse program_A_indexed_by_literal) = Some true.
Proof.
  split; [constructor |]. split; [eexists; vm_compute; reflexivity |].
  repeat split; vm_compute; reflexivity.
Qed.

(** C1 (amended): for an indexed access [E[k]] anywhere below a member
    initializer, with [E] a plain identifier that resolves to a tracked
    enum: when [k] is absent or is not a string literal, evaluating the
    initializer judges it non-constant and clears [canBeConst] of [E], and
    the flag stays cleared through every later operation of the run; when
    [k] is a string literal that does not name a member of [E] known
    constant, the initializer is judged non-constant as well, but the
    access itself leaves the registry as it is. *)
Theorem C1_indexed_access_invalidation
    (initializer : ts.Expression) (ms : gmap (option string) bool) (st : Registry)
    (E : string) (k : option ts.Expression) (track : IEnum) :
  occursIn (ts.ElementAccessExpression (ts.Identifier E) k) initializer ->
  _getEnumInScope E st = Some track ->
  (isStringLiteralArgument k = false ->
     (_isConstInitializer initializer ms st).1 = false /\
     canBeConstOf E (_isConstInitializer initializer ms st).2 = Some false /\
     forall ops,
       canBeConstOf E (fold_left (fun acc op => perform op acc) ops
                         (_isConstInitializer initializer ms st).2) = Some false) /\
  (forall key, k = Some (ts.StringLiteral key) ->
     truthy (members track !! Some key) = false ->
     (_isConstInitializer initializer ms st).1 = false /\
     forall (isConst0 : bool) (st0 : Registry),
       members <$> Map_get E st0 = Some (members track) ->
       cb ms (ts.ElementAccessExpression (ts.Identifier E) k) (isConst0, st0) = (false, st0)).
Proof.
  intros Hocc Htrack. unfold _getEnumInScope in Htrack.
  assert (HE : members <$> Map_get E st = Some (members track)) by (by rewrite Htrack).
  split.
  - intros Hk. unfold _isConstInitializer.
    destruct (cb_reaches_indexed_access ms E k (members track) initializer Hocc
                (or_introl Hk) (true, st) HE) as [Hf Hc].
    split; [exact Hf |]. split; [by apply Hc |].
    intros ops. apply perform_all_keeps_cleared. by apply Hc.
  - intros key -> Hkey. split.
    + unfold _isConstInitializer.
      apply (cb_reaches_indexed_access ms E _ (members track) initializer Hocc); [| exact HE].
      right. by exists key.
    + intros isConst0 st0 H0. cbn [cb]. unfold elementAccessGuard, _getEnumInScope.
      cbn [fst snd]. destruct (Map_get E st0) as [t0|]; [| done].
      simpl in H0. injection H0 as H0. rewrite H0, Hkey. unfold cbIdentifier. simpl.
      by destruct (truthy (ms !! Some E)).
Qed.

Lemma C1_indexed_access_invalidation_witness :
  (_isConstInitializer access_A_i_plus_1 ∅ registry_A).1 = false /\
  canBeConstOf "A" (_isConstInitializer access_A_i_plus_1 ∅ registry_A).2 = Some false /\
  forall ops,
    canBeConstOf "A" (fold_left (fun acc op => perform op acc) ops
                        (_isConstInitializer access_A_i_plus_1 ∅ registry_A).2)
    = Some false.
Proof.
  refine (proj1 (C1_indexed_access_invalidation access_A_i_plus_1 ∅
                   registry_A "A" (Some (ts.Identifier "i"))
                   (mkIEnum "A" false [enum_A] {[Some "X" := true]} true) _ _) _).
  - apply (occurs_child _ _ access_A_i); [simpl; auto | apply occurs_here].
  - vm_compute. reflexivity.
  - reflexivity.
Defined.

(** ** C2: the usage validator *)

(** C2, as stated, fails: in [enum A { X = 1 }  foo.A;] the identifier [A]
    is the property name of [foo.A], not its object, and its text names the
    tracked enum [A]; the validator returns at once because the parent is a
    property access, and [A] keeps [canBeConst] to the end of the run. *)
Lemma C2_counterexample :
  is_Some (_getEnumInScope "A" registry_A) /\
  canBeConstOf "A" registry_A = Some true /\
  _checkUsage access_foo_A false "A" registry_A = registry_A /\
  canBeConstOf "A" (traverse program_A_as_property_name) = Some true /\
  walk program_A_as_property_name = [expectedFinding enum_A].
Proof.
  split; [eexists; vm_compute; reflexivity |].
  repeat split; vm_compute; reflexivity.
Qed.

(** C2 (amended): for an identifier whose text names a tracked enum, the
    usage validator leaves the registry as it is when the parent is a
    property access (whether the identifier is its object or its property
    name), when the parent is an export assignment, or when the identifier
    is the base of an indexed access whose index is a string literal; in
    every other position it clears [canBeConst] of that entry and touches
    nothing else.  The walk hands every identifier outside enum
    declarations to the validator, so a property access [o.p] between two
    identifiers never changes the registry. *)
Theorem C2_usage_validator
    (parent : ts.Node) (isExpressionOfParent : bool) (text : string)
    (st : Registry) (track : IEnum) :
  _getEnumInScope text st = Some track ->
  ((forall e p, parent = ts.PropertyAccessNode e p ->
      _checkUsage parent isExpressionOfParent text st = st) /\
   (forall e, parent = ts.ExportAssignment e ->
      _checkUsage parent isExpressionOfParent text st = st) /\
   (forall e key, parent = ts.ElementAccessNode e (Some (ts.StringLiteralNode key)) ->
      isExpressionOfParent = true ->
      _checkUsage parent isExpressionOfParent text st = st) /\
   ((forall e p, parent ≠ ts.PropertyAccessNode e p) ->
    (forall e, parent ≠ ts.ExportAssignment e) ->
    (forall e key, parent = ts.ElementAccessNode e (Some (ts.StringLiteralNode key)) ->
       isExpressionOfParent = false) ->
    Map_get text (_checkUsage parent isExpressionOfParent text st)
    = Some (set_canBeConst false track) /\
    forall n, n ≠ text ->
      Map_get n (_checkUsage parent isExpressionOfParent text st) = Map_get n st)) /\
  (forall grandparent b, walkCb grandparent b (ts.IdentifierNode text) st
                         = _checkUsage grandparent b text st) /\
  (forall grandparent b o, walkCb grandparent b
                             (ts.PropertyAccessNode (ts.IdentifierNode o) text) st = st).
Proof.
  intros Htrack. split; [| split; [done |]].
  - split; [by intros e p -> |]. split; [by intros e -> |].
    split; [by intros e key -> -> |].
    intros HP HX HE. unfold _checkUsage.
    assert ((isPropertyAccessNode parent || isExportAssignment parent
             || isElementAccessNode parent && isExpressionOfParent
                && argumentIsStringLiteral parent) = false) as ->.
    { destruct parent as [| | e p | e a | e | |]; simpl; try done.
      - by destruct (HP e p).
      - destruct a as [[]|]; simpl; try (by rewrite andb_false_r).
        by rewrite (HE e _ eq_refl).
      - by destruct (HX e). }
    rewrite Htrack. split.
    + rewrite Map_get_assign_eq. unfold _getEnumInScope in Htrack. by rewrite Htrack.
    + intros n Hne. by apply Map_get_assign_ne.
  - intros grandparent b o. reflexivity.
Qed.

Lemma C2_usage_validator_witness :
  Map_get "A" (_checkUsage call_f_A false "A" registry_A)
  = Some (set_canBeConst false (mkIEnum "A" false [enum_A] {[Some "X" := true]} true)).
Proof.
  refine (proj1 (proj2 (proj2 (proj2 (proj1
            (C2_usage_validator call_f_A false "A" registry_A
               (mkIEnum "A" false [enum_A] {[Some "X" := true]} true) _)))) _ _ _)).
  - vm_compute. reflexivity.
  - intros e p H. discriminate H.
  - intros e H. discriminate H.
  - intros e key H. discriminate H.
Defined.

(** ** C3: enums without initializers *)

(** C3, as stated, fails: in [enum Color { Red, Green, Blue }  f(Color);]
    the enum has no member initializer, no export modifier and no const
    modifier, but it is passed as an argument; the run ends with
    [canBeConst] false and no finding. *)
Lemma C3_counterexample :
  plainDeclaration enum_Color = true /\
  declarations program_Color_passed = [enum_Color] /\
  canBeConstOf "Color" (traverse program_Color_passed) = Some false /\
  walk program_Color_passed = [].
Proof. repeat split; vm_compute; reflexivity. Qed.

(** C3 (amended): for an enum declared in the analysed tree such that no
    member of any of its declarations has an initializer, no declaration of
    it is exported and none is const, and such that the walk meets no
    identifier naming it in a position the usage validator does not exempt
    and no enum declaration whose initializers index it dynamically, the
    run ends with [canBeConst] true for that enum and the findings contain
    the fix of every one of its occurrences. *)
Theorem C3_plain_enum_is_reported (sourceFile : ts.SourceFile) (n : string) :
  named n (declarations sourceFile) ≠ [] ->
  Forall (fun d => plainDeclaration d = true) (named n (declarations sourceFile)) ->
  disqualifiedIn n sourceFile = false ->
  canBeConstOf n (traverse sourceFile) = Some true /\
  forall d, d ∈ declarations sourceFile -> ts.name d = n ->
            expectedFinding d ∈ walk sourceFile.
Proof.
  intros Hdeclared Hplain Hd.
  assert (Hel : eligible n (traverse sourceFile)).
  { apply walkChildren_eligible; try done.
    apply Forall_forall. intros node _. apply walkCb_eligible. }
  pose proof (walked_occurences _ _ _ (traverse_walked sourceFile) n) as Ho.
  unfold occurencesOf in Ho. simpl in Ho.
  destruct (Map_get n (traverse sourceFile)) as [t|] eqn:E; simpl in Ho; [| congruence].
  destruct (Hel t E) as [Hi Hc]. split.
  - unfold canBeConstOf. by rewrite E, <- Hc.
  - intros d Hin Hname. rewrite walk_expected.
    apply list_elem_of_In, in_flat_map. exists (n, t). split.
    + apply list_elem_of_In. by apply Map_get_Some_elem.
    + unfold expectedFindings. simpl. rewrite Hi, Hc. apply in_map.
      apply list_elem_of_In. rewrite Ho. unfold named. by apply list_elem_of_filter.
Qed.

Lemma C3_plain_enum_is_reported_witness :
  canBeConstOf "Color" (traverse program_Color_member) = Some true /\
  forall d, d ∈ declarations program_Color_member -> ts.name d = "Color" ->
            expectedFinding d ∈ walk program_Color_member.
Proof.
  apply (C3_plain_enum_is_reported program_Color_member "Color").
  - vm_compute. discriminate.
  - vm_compute. constructor; [reflexivity | constructor].
  - vm_compute. reflexivity.
Defined.

(** ** C4: [canBeConst] only goes down *)

(** C4: a tracking structure is created with [canBeConst] true, and every
    operation of the rule (registering or processing a declaration,
    processing one member, validating a usage, evaluating an initializer,
    walking a node or a list of siblings) leaves the flag of every tracked
    enum unchanged or sets it to false; a flag that is false stays false. *)
Theorem C4_canBeConst_monotone :
  (forall node st,
     _getEnumInScope (ts.name node) st = None ->
     canBeConstOf (ts.name node) (_addEnum node st) = Some true) /\
  (forall op st n b,
     canBeConstOf n st = Some b ->
     canBeConstOf n (perform op st) = Some b \/
     canBeConstOf n (perform op st) = Some false) /\
  (forall op st n,
     canBeConstOf n st = Some false -> canBeConstOf n (perform op st) = Some false) /\
  (forall ops st n,
     canBeConstOf n st = Some false ->
     canBeConstOf n (fold_left (fun acc op => perform op acc) ops st) = Some false).
Proof.
  split; [| split; [| split]].
  - intros node st H. unfold canBeConstOf, _getEnumInScope in *.
    by rewrite _addEnum_own, H.
  - intros op st. apply perform_downward.
  - intros op st n H. by destruct (perform_downward op st n false H).
  - intros ops st n. apply perform_all_keeps_cleared.
Qed.

Lemma C4_canBeConst_monotone_witness :
  canBeConstOf "A" (_addEnum enum_A []) = Some true /\
  canBeConstOf "A"
    (perform (VisitEnumDeclaration enum_A)
       (perform (WalkNode (ts.OtherNode []) false call_f_A)
          (visitEnumDeclaration enum_A []))) = Some false.
Proof.
  destruct C4_canBeConst_monotone as (Hcreate & _ & Hstay & _).
  split.
  - apply (Hcreate enum_A []). reflexivity.
  - apply Hstay. vm_compute. reflexivity.
Defined.

(** ** C5: the findings *)

(** C5: after the traversal the findings are, entry by entry in registry
    order, one finding for each occurrence of every entry that is not
    const and can be const (range from the start of the declaration to the
    end of its name, message "enum can be declared const", fix a
    zero-length replacement at the start inserting "const "), and nothing
    for any other entry. *)
Theorem C5_findings (sourceFile : ts.SourceFile) :
  walk sourceFile
  = flat_map
      (fun entry : string * IEnum =>
         let track := entry.2 in
         match isConst track, canBeConst track with
         | false, true =>
             map (fun occurence =>
                    {| Lint.failureStart := ts.start occurence;
                       Lint.failureEnd := ts.nameEnd occurence;
                       Lint.failure := "enum can be declared const";
                       Lint.fix_ := {| Lint.replacementStart := ts.start occurence;
                                       Lint.replacementLength := 0;
                                       Lint.replacementText := "const " |} |})
                 (occurences track)
         | _, _ => []
         end)
      (traverse sourceFile).
Proof.
  unfold walk, report. rewrite report_from. simpl.
  apply flat_map_ext. intros [k track]. unfold expectedFindings, expectedFinding. simpl.
  by destruct (isConst track), (canBeConst track).
Qed.

(** ** C6: merged declarations *)

(** C6: when two declarations [d1] and [d2] of one name [n] are processed
    in a run, the registry has a single entry for [n] (its keys are
    pairwise distinct); its occurrences contain both declarations and its
    member map holds the members of both, and they are exactly these when
    no other declaration carries the name; its [canBeConst] is false at the
    end of the run as soon as one of the two is exported.  A declaration
    that does not redefine a member keeps the value recorded for it, so the
    map after the second declaration extends the map after the first. *)
Theorem C6_merged_declarations
    (sourceFile : ts.SourceFile) (d1 d2 : ts.EnumDeclaration) (n : string) :
  d1 ∈ declarations sourceFile ->
  d2 ∈ declarations sourceFile ->
  ts.name d1 = n ->
  ts.name d2 = n ->
  (exists track,
     Map_get n (traverse sourceFile) = Some track /\
     NoDup (keys (traverse sourceFile)) /\
     d1 ∈ occurences track /\
     d2 ∈ occurences track /\
     declaredNames d1 ∪ declaredNames d2 ⊆ dom (members track) /\
     (named n (declarations sourceFile) = [d1; d2] ->
        occurences track = [d1; d2] /\
        dom (members track) = declaredNames d1 ∪ declaredNames d2) /\
     (Lint.hasModifier (ts.modifiers d1) ts.ExportKeyword = true \/
      Lint.hasModifier (ts.modifiers d2) ts.ExportKeyword = true ->
      canBeConst track = false)) /\
  (forall st,
     Map_get n st = None ->
     declaredNames d1 ## declaredNames d2 ->
     membersOf n (visitEnumDeclaration d1 st)
     ⊆ membersOf n (visitEnumDeclaration d2 (visitEnumDeclaration d1 st))).
Proof.
  intros Hd1 Hd2 Hn1 Hn2.
  pose proof (traverse_walked sourceFile) as W.
  pose proof (walked_occurences _ _ _ W n) as Ho.
  pose proof (walked_members _ _ _ W n) as Hm.
  assert (Hin1 : d1 ∈ named n (declarations sourceFile))
    by (unfold named; by apply list_elem_of_filter).
  assert (Hin2 : d2 ∈ named n (declarations sourceFile))
    by (unfold named; by apply list_elem_of_filter).
  unfold occurencesOf, membersOf in Ho, Hm. simpl in Ho, Hm.
  rewrite dom_empty_L, (left_id_L ∅ (∪)) in Hm.
  split.
  - destruct (Map_get n (traverse sourceFile)) as [track|] eqn:E; simpl in Ho, Hm.
    2: { rewrite <- Ho in Hin1. by apply elem_of_nil in Hin1. }
    exists track. split; [done |]. split; [| split; [| split; [| split; [| split]]]].
    + apply (walked_NoDup _ _ _ W). apply NoDup_nil_2.
    + by rewrite Ho.
    + by rewrite Ho.
    + rewrite Hm. intros k [Hk | Hk]%elem_of_union; apply elem_of_union_list.
      * exists (declaredNames d1). split; [| done]. by apply list_elem_of_fmap_2.
      * exists (declaredNames d2). split; [| done]. by apply list_elem_of_fmap_2.
    + intros Hex. rewrite Ho, Hm, Hex. split; [done |]. simpl.
      by rewrite (right_id_L ∅ (∪)).
    + intros [Hx | Hx].
      * pose proof (walked_export _ _ _ W d1 Hd1 Hx) as Hc.
        unfold canBeConstOf in Hc. rewrite Hn1, E in Hc. by injection Hc.
      * pose proof (walked_export _ _ _ W d2 Hd2 Hx) as Hc.
        unfold canBeConstOf in Hc. rewrite Hn2, E in Hc. by injection Hc.
  - intros st Hfresh Hdisj. apply map_subseteq_spec. intros k v Hk.
    rewrite <- Hn2 at 1. rewrite visitEnumDeclaration_lookup; [by rewrite Hn2 |].
    intros Hk2. apply (Hdisj k); [| done].
    pose proof (walked_members _ _ _ (visitEnumDeclaration_walked d1 st) n) as Hm1.
    assert (Hdom : k ∈ dom (membersOf n (visitEnumDeclaration d1 st)))
      by (apply elem_of_dom; eauto).
    rewrite Hm1 in Hdom. rewrite named_singleton, decide_True in Hdom by done.
    simpl in Hdom. rewrite (right_id_L ∅ (∪)) in Hdom.
    apply elem_of_union in Hdom as [Hdom | Hdom]; [| done].
    unfold membersOf in Hdom. rewrite Hfresh in Hdom. simpl in Hdom.
    rewrite dom_empty_L in Hdom. by apply elem_of_empty in Hdom.
Qed.

Lemma C6_merged_declarations_witness :
  exists track,
    Map_get "A" (traverse program_A_merged) = Some track /\
    NoDup (keys (traverse program_A_merged)) /\
    enum_A ∈ occurences track /\
    enum_A_exported ∈ occurences track /\
    declaredNames enum_A ∪ declaredNames enum_A_exported ⊆ dom (members track) /\
    (named "A" (declarations program_A_merged) = [enum_A; enum_A_exported] ->
       occurences track = [enum_A; enum_A_exported] /\
       dom (members track) = declaredNames enum_A ∪ declaredNames enum_A_exported) /\
    (Lint.hasModifier (ts.modifiers enum_A) ts.ExportKeyword = true \/
     Lint.hasModifier (ts.modifiers enum_A_exported) ts.ExportKeyword = true ->
     canBeConst track = false).
Proof.
  refine (proj1 (C6_merged_declarations program_A_merged enum_A enum_A_exported "A" _ _ _ _)).
  - apply list_elem_of_here.
  - apply list_elem_of_further, list_elem_of_here.
  - reflexivity.
  - reflexivity.
Defined.

(** ** C7: a bare identifier as initializer *)

(** C7, as stated, fails: in [const enum A { X = Z }] the initializer of
    [X] is a bare identifier that names no recorded sibling, yet [X] is
    recorded constant, because the enum is already const and the
    initializer is not evaluated. *)
Lemma C7_counterexample :
  ts.initializer (ts.mkEnumMember (Some "X") (Some (ts.Identifier "Z")))
  = Some (ts.Identifier "Z") /\
  membersOf "A" (_addEnum const_enum_A []) !! Some "Z" = None /\
  membersOf "A" (visitEnumDeclaration const_enum_A []) !! Some "X" = Some true /\
  membersOf "A" (visitEnumDeclaration const_enum_A []) !! Some "Z" = None.
Proof. repeat split; vm_compute; reflexivity. Qed.

(** C7 (amended): for a member of an enum that is not tracked as const
    whose initializer is a bare identifier, the member is recorded constant
    iff the identifier names a sibling already recorded constant when the
    initializer is evaluated; otherwise the member is recorded
    non-constant and [canBeConst] of the enum is cleared, and no other
    entry changes.  In particular a reference to a name that neither an
    earlier member of the declaration nor an earlier merged declaration
    has recorded constant (an undeclared sibling, a later member, a member
    of a later merged declaration) is recorded non-constant and clears
    [canBeConst].  In an enum
    tracked as const the member is recorded constant without looking at
    the initializer. *)
Theorem C7_bare_identifier_initializer :
  (forall key st track member text,
     Map_get key st = Some track ->
     ts.initializer member = Some (ts.Identifier text) ->
     (isConst track = false ->
        (membersOf key (visitMember key st member) !! ts.propertyName member = Some true
         <-> members track !! Some text = Some true) /\
        (members track !! Some text ≠ Some true ->
           membersOf key (visitMember key st member) !! ts.propertyName member = Some false /\
           canBeConstOf key (visitMember key st member) = Some false) /\
        (forall n, n ≠ key -> Map_get n (visitMember key st member) = Map_get n st)) /\
     (isConst track = true ->
        membersOf key (visitMember key st member) !! ts.propertyName member = Some true)) /\
  (forall node st pre member post text,
     (forall t, Map_get (ts.name node) st = Some t -> isConst t = false) ->
     Lint.hasModifier (ts.modifiers node) ts.ConstKeyword = false ->
     ts.members node = pre ++ member :: post ->
     ts.initializer member = Some (ts.Identifier text) ->
     membersOf (ts.name node) st !! Some text ≠ Some true ->
     Some text ∉ ts.propertyName <$> pre ->
     ts.propertyName member ∉ ts.propertyName <$> post ->
     membersOf (ts.name node) (visitEnumDeclaration node st) !! ts.propertyName member
     = Some false /\
     canBeConstOf (ts.name node) (visitEnumDeclaration node st) = Some false).
Proof.
  split.
  - intros key st track member text Htrack Hinit.
    pose proof (visitMember_own key st member track Htrack) as Hown.
    rewrite (isConstMember_Identifier _ _ _ _ Hinit) in Hown. cbn [fst snd] in Hown.
    unfold canBeConstOf in Hown. rewrite Htrack in Hown. simpl in Hown.
    unfold membersOf, canBeConstOf. rewrite Hown. simpl. rewrite lookup_insert_eq.
    split.
    + intros ->. simpl. split; [| split].
      * destruct (members track !! Some text) as [[]|]; simpl; split; congruence.
      * intros Hne.
        destruct (members track !! Some text) as [[]|]; simpl;
          rewrite ?andb_false_r; done.
      * intros n Hne. unfold visitMember. rewrite Htrack.
        rewrite (isConstMember_Identifier _ _ _ _ Hinit). cbn [fst snd].
        by rewrite !Map_get_assign_ne.
    + by intros ->.
  - intros node st pre member post text Hnotconst Hconst Hmembers Hinit Hearlier Hpre Hpost.
    unfold visitEnumDeclaration. rewrite Hmembers, fold_left_app. cbn [fold_left].
    set (st1 := fold_left (visitMember (ts.name node)) pre (_addEnum node st)).
    destruct (fold_visitMember_own (ts.name node) pre _ _ (_addEnum_own node st))
      as (track1 & Hget1 & _ & Hi1 & _ & _ & _).
    pose proof (fold_visitMember_lookup (ts.name node) pre (Some text) _ _
                  (_addEnum_own node st) Hpre) as Hl1.
    fold st1 in Hget1, Hl1. unfold membersOf in Hl1, Hearlier. rewrite Hget1 in Hl1.
    simpl in Hl1.
    assert (Hi : isConst track1 = false).
    { rewrite Hi1. destruct (Map_get (ts.name node) st) as [t|]; simpl; [| done].
      by apply Hnotconst. }
    assert (Hlook : truthy (members track1 !! Some text) = false).
    { rewrite Hl1. destruct (Map_get (ts.name node) st) as [t|]; simpl in *.
      - by destruct (members t !! Some text) as [[]|].
      - by rewrite lookup_empty. }
    pose proof (visitMember_own _ _ member _ Hget1) as Hown.
    rewrite (isConstMember_Identifier _ _ _ _ Hinit) in Hown. cbn [fst snd] in Hown.
    rewrite Hi, Hlook in Hown. simpl in Hown. rewrite andb_false_r in Hown.
    destruct (fold_visitMember_own (ts.name node) post _ _ Hown)
      as (track2 & Hget2 & _ & _ & _ & _ & Hc2).
    pose proof (fold_visitMember_lookup (ts.name node) post (ts.propertyName member)
                  _ _ Hown Hpost) as Hl2.
    simpl in Hl2, Hc2. rewrite lookup_insert_eq in Hl2.
    unfold membersOf, canBeConstOf in *. rewrite Map_get_assign_eq.
    rewrite Hget2 in *. simpl in *. split; [done |].
    destruct (canBeConst track2); [by discriminate Hc2 | done].
Qed.

Lemma C7_bare_identifier_initializer_witness :
  membersOf "C" (visitEnumDeclaration enum_C_forward []) !! Some "P" = Some false /\
  canBeConstOf "C" (visitEnumDeclaration enum_C_forward []) = Some false.
Proof.
  refine (proj2 C7_bare_identifier_initializer enum_C_forward [] []
            (ts.mkEnumMember (Some "P") (Some (ts.Identifier "Q")))
            [ts.mkEnumMember (Some "Q") (Some numericLiteral)] "Q" _ _ _ _ _ _ _).
  - intros t H. discriminate H.
  - reflexivity.
  - reflexivity.
  - reflexivity.
  - intros H. discriminate H.
  - apply not_elem_of_nil.
  - intros H. apply list_elem_of_singleton in H. discriminate H.
Defined.

(** ** C8: a member of another enum as initializer *)

(** C8: a property access [E.m] whose base is an identifier resolving to a
    tracked enum and whose property names a member already known constant
    is judged constant and the callback returns without visiting its
    children; hence in [enum A { X = 1 }  enum B { Y = A.X }] the enum [A]
    ends with [canBeConst] true and the member [Y] of [B] is recorded
    constant. *)
Theorem C8_cross_enum_reference :
  (forall E m ms st track,
     _getEnumInScope E st = Some track ->
     members track !! Some m = Some true ->
     (forall s : EvalState, s.2 = st ->
        cb ms (ts.PropertyAccessExpression (ts.Identifier E) m) s = s) /\
     _isConstInitializer (ts.PropertyAccessExpression (ts.Identifier E) m) ms st
     = (true, st)) /\
  canBeConstOf "A" (traverse program_A_then_B) = Some true /\
  membersOf "A" (traverse program_A_then_B) !! Some "X" = Some true /\
  membersOf "B" (traverse program_A_then_B) !! Some "Y" = Some true /\
  walk program_A_then_B = [expectedFinding enum_A; expectedFinding enum_B_referring_A].
Proof.
  split.
  - intros E m ms st track Htrack Hm.
    assert (H : forall s : EvalState, s.2 = st ->
                  cb ms (ts.PropertyAccessExpression (ts.Identifier E) m) s = s).
    { intros s Hs. cbn [cb]. unfold propertyAccessResolved.
      by rewrite Hs, Htrack, Hm. }
    split; [exact H |]. by apply H.
  - repeat split; vm_compute; reflexivity.
Qed.

Lemma C8_cross_enum_reference_witness :
  _isConstInitializer access_A_X ∅ (visitEnumDeclaration enum_A [])
  = (true, visitEnumDeclaration enum_A []).
Proof.
  refine (proj2 (proj1 C8_cross_enum_reference "A" "X" ∅ (visitEnumDeclaration enum_A [])
                   (mkIEnum "A" false [enum_A] {[Some "X" := true]} true) _ _)).
  - vm_compute. reflexivity.
  - vm_compute. reflexivity.
Defined.

(** ** C9: the analysis is total *)

(** C9, as stated, fails in its last part: in [enum A { X = (() => 1)() }]
    the initializer is a call, a shape the evaluator has no rule for, and
    the member is judged constant (and the enum reported), not
    non-constant. *)
Lemma C9_counterexample :
  _isConstInitializer call_of_arrow ∅ [] = (true, []) /\
  membersOf "A" (visitEnumDeclaration enum_A_computed []) !! Some "X" = Some true /\
  walk (ts.mkSourceFile [ts.EnumDeclarationNode enum_A_computed])
  = [expectedFinding enum_A_computed].
Proof. repeat split; vm_compute; reflexivity. Qed.

(** C9 (amended): the analysis is total.  With a call stack as deep as the
    nesting depth of the tree the walk returns its findings, and with one
    as deep as the nesting depth of an initializer the evaluator returns
    its verdict; nothing raises an error.  A lookup miss degrades to
    non-constant: an identifier that is not a sibling known constant, a
    property access or an indexed access that does not resolve to a member
    known constant of a tracked enum.  An expression of any other shape is
    judged through its children: the verdict is [constantShape], constant
    unless a descendant is such a miss, so a node without children is
    judged constant. *)
Theorem C9_analysis_is_total :
  (forall sourceFile depth,
     (sourceFileDepth sourceFile <= depth)%nat ->
     walkWithin depth sourceFile = Some (walk sourceFile)) /\
  (forall initializer ms st depth,
     (expressionDepth initializer <= depth)%nat ->
     cbWithin depth ms initializer (true, st)
     = Some (_isConstInitializer initializer ms st)) /\
  (forall text ms st,
     ms !! Some text ≠ Some true ->
     (_isConstInitializer (ts.Identifier text) ms st).1 = false) /\
  (forall e name ms st,
     (forall text track, e = ts.Identifier text -> _getEnumInScope text st = Some track ->
                         members track !! Some name ≠ Some true) ->
     (_isConstInitializer (ts.PropertyAccessExpression e name) ms st).1 = false) /\
  (forall e a ms st,
     (forall text track key, e = ts.Identifier text -> a = Some (ts.StringLiteral key) ->
                             _getEnumInScope text st = Some track ->
                             members track !! Some key ≠ Some true) ->
     (_isConstInitializer (ts.ElementAccessExpression e a) ms st).1 = false) /\
  (forall initializer ms st,
     (_isConstInitializer initializer ms st).1 = constantShape ms st initializer) /\
  (forall ms st, _isConstInitializer (ts.OtherExpression []) ms st = (true, st)).
Proof.
  assert (Hfalsy : forall o : option bool, o ≠ Some true -> truthy o = false)
    by (intros [[]|]; done).
  split; [intros; by apply walkWithin_complete |].
  split; [intros; by apply cbWithin_complete |].
  split; [| split; [| split; [| split; [| done]]]].
  - intros text ms st H. rewrite _isConstInitializer_Identifier. by apply Hfalsy.
  - intros e name ms st H. unfold _isConstInitializer. cbn [cb snd].
    assert (propertyAccessResolved e name st = false) as ->.
    { unfold propertyAccessResolved. destruct e; try done.
      destruct (_getEnumInScope text st) as [track|] eqn:E; [| done].
      apply Hfalsy. by apply (H text track). }
    simpl. rewrite cbIdentifier_flag, cb_flag_false. done.
  - intros e a ms st H. unfold _isConstInitializer. cbn [cb snd].
    destruct (elementAccessGuard e a st) as [st1|] eqn:G.
    + destruct a as [argument|]; [| apply cb_flag_false].
      destruct (cb ms e (false, st1)) as [f st2] eqn:E1.
      assert (f = false) as -> by (rewrite <- (cb_flag_false ms e st1); by rewrite E1).
      apply cb_flag_false.
    + exfalso. unfold elementAccessGuard in G. simpl in G.
      destruct e; try done.
      destruct (_getEnumInScope text st) as [track|] eqn:E; [| done].
      destruct a as [[]|]; try done.
      rewrite (Hfalsy _ (H text track text0 eq_refl eq_refl E)) in G. done.
  - intros initializer ms st. apply _isConstInitializer_constantShape.
Qed.

Lemma C9_analysis_is_total_witness :
  walkWithin 3 program_A_then_B = Some (walk program_A_then_B).
Proof.
  apply (proj1 C9_analysis_is_total program_A_then_B 3%nat).
  vm_compute. lia.
Defined.

(** ** C10: a bare identifier that names a tracked enum *)

(** C10, as stated, fails twice.  In [enum A { X = 1 }  enum B { A, Y = A }]
    the initializer of [Y] is a bare identifier whose text names the tracked
    enum [A], yet [Y] is recorded constant, because [B] has a constant
    member of that name.  In [enum S { Y = S }] the identifier names the
    tracked enum [S] itself, the member is non-constant, and that clears
    [canBeConst] of [S]. *)
Lemma C10_counterexample :
  (is_Some (_getEnumInScope "A" (_addEnum enum_B_shadowing_A (visitEnumDeclaration enum_A []))) /\
   membersOf "B" (visitEnumDeclaration enum_B_shadowing_A (visitEnumDeclaration enum_A []))
     !! Some "Y" = Some true) /\
  (canBeConstOf "S" (_addEnum enum_S_self []) = Some true /\
   canBeConstOf "S" (visitEnumDeclaration enum_S_self []) = Some false).
Proof.
  repeat split; try (vm_compute; reflexivity).
  eexists. vm_compute. reflexivity.
Qed.

(** C10 (amended): the walk hands an enum declaration to the declaration
    processor without descending into it, and the evaluator only reads the
    member map at a bare identifier: it leaves the registry as it is and
    answers whether the identifier names a sibling already known constant.
    So the member is recorded constant exactly when the enclosing enum is
    already const or has such a sibling, and non-constant otherwise; and
    a declaration none of whose initializers indexes [n] dynamically leaves
    the entry of every enum [n] other than the declared one unchanged,
    whatever identifiers named [n] its initializers contain. *)
Theorem C10_identifier_naming_enum :
  (forall parent b node st,
     walkCb parent b (ts.EnumDeclarationNode node) st = visitEnumDeclaration node st) /\
  (forall text ms st,
     _isConstInitializer (ts.Identifier text) ms st = (truthy (ms !! Some text), st)) /\
  (forall key st track member text,
     Map_get key st = Some track ->
     ts.initializer member = Some (ts.Identifier text) ->
     membersOf key (visitMember key st member) !! ts.propertyName member
     = Some (isConst track || truthy (members track !! Some text)) /\
     forall n, n ≠ key -> Map_get n (visitMember key st member) = Map_get n st) /\
  (forall node st n,
     n ≠ ts.name node ->
     declarationIndexesDynamically n node = false ->
     Map_get n (visitEnumDeclaration node st) = Map_get n st).
Proof.
  split; [done |]. split; [apply _isConstInitializer_Identifier |]. split.
  - intros key st track member text Htrack Hinit. split.
    + unfold membersOf. rewrite (visitMember_own _ _ _ _ Htrack). simpl.
      rewrite lookup_insert_eq. by rewrite (isConstMember_Identifier _ _ _ _ Hinit).
    + intros n Hne. apply visitMember_untouched; [done |]. by rewrite Hinit.
  - apply visitEnumDeclaration_untouched.
Qed.

Lemma C10_identifier_naming_enum_witness :
  Map_get "A" (visitEnumDeclaration enum_B_naming_A (visitEnumDeclaration enum_A []))
  = Map_get "A" (visitEnumDeclaration enum_A []).
Proof.
  refine (proj2 (proj2 (proj2 C10_identifier_naming_enum))
            enum_B_naming_A (visitEnumDeclaration enum_A []) "A" _ _).
  - intros H. discriminate H.
  - reflexivity.
Defined.

(** * Further properties *)

(** ** Induction along the walk *)

(** A relation between the registry before and after that holds for a
    step that only clears flags and for the processing of one declaration,
    and that composes, holds along the whole walk. *)
Section WalkInduction.
Variable R : list ts.EnumDeclaration -> Registry -> Registry -> Prop.
Hypothesis R_clears : forall st st', onlyClears st st' -> R [] st st'.
Hypothesis R_declaration : forall d st, R [d] st (visitEnumDeclaration d st).
Hypothesis R_compose : forall ds1 ds2 st1 st2 st3,
  R ds1 st1 st2 -> R ds2 st2 st3 -> R (ds1 ++ ds2) st1 st3.

Lemma walkChildren_along parent children :
  Forall (fun node => forall parent b st,
            R (declarationsOf node) st (walkCb parent b node st)) children ->
  forall st, R (flat_map declarationsOf children) st (walkChildren parent children st).
Proof.
  unfold walkChildren.
  induction 1 as [|node l Hnode Hl IH]; intros st; simpl.
  - apply R_clears, onlyClears_refl.
  - eapply R_compose; [apply Hnode | apply IH].
Qed.

Lemma walkCb_along node : forall parent b st,
  R (declarationsOf node) st (walkCb parent b node st).
Proof.
  induction node as [text|text|e name IH|e a IHe IHa|e IH|d|children IH]
    using Node_nested_ind; intros parent b st; cbn [walkCb declarationsOf].
  - apply R_clears, _checkUsage_onlyClears.
  - apply R_clears, onlyClears_refl.
  - rewrite <- (app_nil_r (declarationsOf e)).
    eapply R_compose; [apply IH |].
    apply R_clears, _checkUsage_onlyClears.
  - destruct a as [argument|]; simpl in IHa.
    + eapply R_compose; [apply IHe | apply IHa].
    + rewrite app_nil_r. apply IHe.
  - apply IH.
  - apply R_declaration.
  - by apply (walkChildren_along (ts.OtherNode children)).
Qed.

Lemma walkChildren_along_all parent children st :
  R (flat_map declarationsOf children) st (walkChildren parent children st).
Proof.
  apply walkChildren_along, Forall_forall. intros node _. apply walkCb_along.
Qed.

Lemma traverse_along sourceFile : R (declarations sourceFile) [] (traverse sourceFile).
Proof. apply (walkChildren_along_all (ts.sourceFileNode sourceFile)). Qed.
End WalkInduction.

(** ** Keys, names and [isConst] along the walk *)

Lemma Map_get_Some_keys k v (m : Registry) : Map_get k m = Some v -> k ∈ keys m.
Proof.
  intros H. destruct (decide (k ∈ keys m)) as [|Hn]; [done |].
  apply Map_get_None_keys in Hn. congruence.
Qed.

Lemma visitEnumDeclaration_addKey d st :
  keys (visitEnumDeclaration d st) = addKey (keys st) (ts.name d).
Proof.
  rewrite visitEnumDeclaration_keys, _addEnum_keys. unfold addKey.
  destruct (Map_get (ts.name d) st) as [t|] eqn:E.
  - apply Map_get_Some_keys in E. by rewrite decide_True.
  - apply Map_get_None_keys in E. by rewrite decide_False.
Qed.

Lemma visitEnumDeclaration_name d st t' :
  Map_get (ts.name d) (visitEnumDeclaration d st) = Some t' ->
  name t' = match Map_get (ts.name d) st with
            | Some t => name t
            | None => ts.name d
            end.
Proof.
  unfold visitEnumDeclaration. rewrite Map_get_assign_eq.
  destruct (fold_visitMember_own (ts.name d) (ts.members d) _ _ (_addEnum_own d st))
    as (track' & -> & Hn & _).
  simpl. intros [= <-]. simpl. rewrite Hn.
  by destruct (Map_get (ts.name d) st).
Qed.

Lemma firstIsConst_app n ds1 ds2 :
  firstIsConst n (ds1 ++ ds2)
  = match firstIsConst n ds1 with
    | Some b => Some b
    | None => firstIsConst n ds2
    end.
Proof.
  unfold firstIsConst. rewrite named_app.
  by destruct (named n ds1).
Qed.

Lemma onlyClears_run st st' : onlyClears st st' -> run [] st st'.
Proof.
  intros H. split.
  - by destruct H as [-> _].
  - intros n. destruct H as [_ H]. destruct (H n) as [-> | ->];
      by destruct (Map_get n st).
  - intros Hw k t Ht. destruct H as [_ H]. destruct (H k) as [E | E]; rewrite E in Ht.
    + by apply Hw.
    + destruct (Map_get k st) as [t0|] eqn:E0; [| done].
      injection Ht as <-. simpl. by apply Hw.
Qed.

Lemma visitEnumDeclaration_run d st : run [d] st (visitEnumDeclaration d st).
Proof.
  destruct (visitEnumDeclaration_own d st) as (track' & Hget & Hi & _).
  pose proof (visitEnumDeclaration_other d st) as Hother.
  split.
  - apply visitEnumDeclaration_addKey.
  - intros n. unfold firstIsConst. rewrite named_singleton.
    destruct (decide (ts.name d = n)) as [<- | Hne].
    + rewrite Hget. simpl. rewrite Hi. by destruct (Map_get (ts.name d) st).
    + destruct (Hother n (not_eq_sym Hne)) as [-> | ->]; by destruct (Map_get n st).
  - intros Hw k t Ht. destruct (decide (k = ts.name d)) as [-> | Hne].
    + rewrite (visitEnumDeclaration_name _ _ _ Ht).
      destruct (Map_get (ts.name d) st) as [t0|] eqn:E0; [by apply Hw | done].
    + destruct (Hother k Hne) as [E | E]; rewrite E in Ht.
      * by apply Hw.
      * destruct (Map_get k st) as [t0|] eqn:E0; [| done].
        injection Ht as <-. simpl. by apply Hw.
Qed.

Lemma run_compose ds1 ds2 st1 st2 st3 :
  run ds1 st1 st2 -> run ds2 st2 st3 -> run (ds1 ++ ds2) st1 st3.
Proof.
  intros H12 H23. split.
  - rewrite (run_keys _ _ _ H23), (run_keys _ _ _ H12).
    unfold firstSeen. by rewrite fmap_app, fold_left_app.
  - intros n. rewrite (run_isConst _ _ _ H23 n), firstIsConst_app.
    pose proof (run_isConst _ _ _ H12 n) as H2.
    destruct (Map_get n st2) as [t2|], (Map_get n st1) as [t1|]; simpl in H2.
    + by injection H2 as ->.
    + by rewrite <- H2.
    + done.
    + by rewrite <- H2.
  - intros Hw. by apply H23, H12.
Qed.

Lemma traverse_run sourceFile : run (declarations sourceFile) [] (traverse sourceFile).
Proof.
  apply traverse_along.
  - apply onlyClears_run.
  - apply visitEnumDeclaration_run.
  - apply run_compose.
Qed.

(** ** Keys in order of first declaration *)

Lemma elem_of_addKey ks k x : x ∈ addKey ks k <-> x ∈ ks \/ x = k.
Proof.
  unfold addKey. destruct (decide (k ∈ ks)) as [Hin | Hn].
  - split; [by left | intros [? | ->]; done].
  - rewrite elem_of_app, list_elem_of_singleton. done.
Qed.

Lemma elem_of_firstSeen names : forall ks x,
  x ∈ firstSeen ks names <-> x ∈ ks \/ x ∈ names.
Proof.
  unfold firstSeen. induction names as [|k names IH]; intros ks x; simpl.
  - split; [by left | intros [? | H]; [done | by apply elem_of_nil in H]].
  - rewrite IH, elem_of_addKey, elem_of_cons. tauto.
Qed.

Lemma NoDup_addKey ks k : NoDup ks -> NoDup (addKey ks k).
Proof.
  intros H. unfold addKey. destruct (decide (k ∈ ks)) as [Hin | Hn]; [done |].
  apply NoDup_app. split; [done |]. split; [| apply NoDup_singleton].
  by intros x Hx ->%list_elem_of_singleton.
Qed.

Lemma NoDup_firstSeen names : forall ks, NoDup ks -> NoDup (firstSeen ks names).
Proof.
  unfold firstSeen. induction names as [|k names IH]; intros ks H; simpl; [done |].
  by apply IH, NoDup_addKey.
Qed.

Lemma Map_get_cons_ne k v (m : Registry) k' :
  k ≠ k' -> Map_get k' ((k, v) :: m) = Map_get k' m.
Proof. intros H. simpl. by rewrite decide_False. Qed.

Lemma flat_map_ext_elem {A B : Type} (f g : A -> list B) (l : list A) :
  (forall x, x ∈ l -> f x = g x) -> flat_map f l = flat_map g l.
Proof.
  induction l as [|x l IH]; intros H; simpl; [done |].
  rewrite (H x) by apply list_elem_of_here. f_equal.
  apply IH. intros y Hy. by apply H, list_elem_of_further.
Qed.

(** With pairwise distinct keys, iterating over the entries is iterating
    over the keys and looking each one up. *)
Lemma flat_map_entries {A : Type} (g : string -> IEnum -> list A) (st : Registry) :
  NoDup (keys st) ->
  flat_map (fun entry : string * IEnum => g entry.1 entry.2) st
  = flat_map (fun k => match Map_get k st with
                       | Some t => g k t
                       | None => []
                       end) (keys st).
Proof.
  unfold keys. induction st as [|[k t] st IH]; intros HN; [done |].
  rewrite fmap_cons in HN. apply NoDup_cons in HN as [Hk HN].
  rewrite fmap_cons. cbn [flat_map fst snd Map_get]. rewrite decide_True by done.
  f_equal. rewrite IH by done. apply flat_map_ext_elem. intros k' Hin.
  rewrite decide_False; [done |].
  by intros ->.
Qed.

Lemma walkChildren_run parent children st :
  run (flat_map declarationsOf children) st (walkChildren parent children st).
Proof.
  apply walkChildren_along_all.
  - apply onlyClears_run.
  - apply visitEnumDeclaration_run.
  - apply run_compose.
Qed.

Lemma named_nil n ds : n ∉ ts.name <$> ds -> named n ds = [].
Proof.
  unfold named. induction ds as [|d ds IH]; intros H; [done |].
  rewrite fmap_cons in H. apply not_elem_of_cons in H as [Hd Hds].
  rewrite filter_cons, decide_False by done. by apply IH.
Qed.

Lemma elem_of_named n ds d : d ∈ named n ds <-> d ∈ ds /\ ts.name d = n.
Proof. unfold named. rewrite list_elem_of_filter. tauto. Qed.

(** ** Further properties of the run *)

(** X1: the flag [isConst] of an enum is the const modifier of its first
    declaration in walk order; the modifiers of later declarations of the
    name are not looked at. *)
Theorem X1_isConst_is_set_by_first_declaration
    (sourceFile : ts.SourceFile) (n : string) (d : ts.EnumDeclaration)
    (later : list ts.EnumDeclaration) :
  named n (declarations sourceFile) = d :: later ->
  isConst <$> Map_get n (traverse sourceFile)
  = Some (Lint.hasModifier (ts.modifiers d) ts.ConstKeyword).
Proof.
  intros H. rewrite (run_isConst _ _ _ (traverse_run sourceFile) n). simpl.
  unfold firstIsConst. by rewrite H.
Qed.

Lemma X1_isConst_is_set_by_first_declaration_witness :
  isConst <$> Map_get "A" (traverse program_A_merged)
  = Some (Lint.hasModifier (ts.modifiers enum_A) ts.ConstKeyword).
Proof.
  apply (X1_isConst_is_set_by_first_declaration program_A_merged "A" enum_A
           [enum_A_exported]).
  reflexivity.
Defined.

(** X2: what precedes the first declaration of an enum does not count
    against it.  When the statements before the first declaration of [n]
    are followed by statements in which every declaration of [n] is plain
    and nothing disqualifies [n], the run ends with [canBeConst] true for
    [n] and reports each of its declarations, whatever uses of the name
    the earlier statements contain. *)
Theorem X2_uses_before_first_declaration_are_ignored
    (sourceFile : ts.SourceFile) (before after : list ts.Node) (n : string) :
  ts.statements sourceFile = before ++ after ->
  n ∉ ts.name <$> flat_map declarationsOf before ->
  named n (flat_map declarationsOf after) ≠ [] ->
  Forall (fun d => plainDeclaration d = true) (named n (flat_map declarationsOf after)) ->
  existsb (disqualifies n (ts.sourceFileNode sourceFile) false) after = false ->
  canBeConstOf n (traverse sourceFile) = Some true /\
  forall d, d ∈ declarations sourceFile -> ts.name d = n ->
            expectedFinding d ∈ walk sourceFile.
Proof.
  intros Hsplit Hbefore Hdeclared Hplain Hafter.
  set (parent := ts.sourceFileNode sourceFile).
  set (st1 := walkChildren parent before []).
  assert (Htraverse : traverse sourceFile = walkChildren parent after st1).
  { unfold traverse, st1, walkChildren, parent. by rewrite Hsplit, fold_left_app. }
  assert (Hnone : Map_get n st1 = None).
  { apply Map_get_None_keys.
    unfold st1. rewrite (run_keys _ _ _ (walkChildren_run parent before [])).
    rewrite elem_of_firstSeen. intros [H | H]; [by apply elem_of_nil in H | done]. }
  assert (Hel : eligible n (traverse sourceFile)).
  { rewrite Htraverse. apply walkChildren_eligible; try done.
    - apply Forall_forall. intros node _. apply walkCb_eligible.
    - intros t Ht. congruence. }
  assert (Hnamed : named n (declarations sourceFile)
                   = named n (flat_map declarationsOf after)).
  { unfold declarations. rewrite Hsplit, flat_map_app, named_app.
    by rewrite (named_nil _ _ Hbefore). }
  pose proof (walked_occurences _ _ _ (traverse_walked sourceFile) n) as Ho.
  unfold occurencesOf in Ho. simpl in Ho. rewrite Hnamed in Ho.
  destruct (Map_get n (traverse sourceFile)) as [t|] eqn:E; simpl in Ho; [| congruence].
  destruct (Hel t E) as [Hi Hc]. split.
  - unfold canBeConstOf. by rewrite E, <- Hc.
  - intros d Hin Hname. rewrite walk_expected.
    apply list_elem_of_In, in_flat_map. exists (n, t). split.
    + apply list_elem_of_In. by apply Map_get_Some_elem.
    + unfold expectedFindings. simpl. rewrite Hi, Hc. apply in_map.
      apply list_elem_of_In. rewrite Ho, <- Hnamed. by apply elem_of_named.
Qed.

Lemma X2_uses_before_first_declaration_are_ignored_witness :
  canBeConstOf "Color" (traverse program_Color_used_before) = Some true /\
  forall d, d ∈ declarations program_Color_used_before -> ts.name d = "Color" ->
            expectedFinding d ∈ walk program_Color_used_before.
Proof.
  apply (X2_uses_before_first_declaration_are_ignored program_Color_used_before
           [ts.OtherNode [ts.OtherNode [ts.IdentifierNode "f"; ts.IdentifierNode "Color"]]]
           [ts.EnumDeclarationNode enum_Color] "Color").
  - reflexivity.
  - apply not_elem_of_nil.
  - vm_compute. discriminate.
  - vm_compute. constructor; [reflexivity | constructor].
  - vm_compute. reflexivity.
Defined.

(** X3: the registry is keyed by the declared names in the order of their
    first declaration, without repetition, and every tracking structure
    carries the name it is stored under. *)
Theorem X3_registry_keys (sourceFile : ts.SourceFile) :
  keys (traverse sourceFile) = firstSeen [] (ts.name <$> declarations sourceFile) /\
  NoDup (keys (traverse sourceFile)) /\
  (forall n, n ∈ keys (traverse sourceFile)
             <-> exists d, d ∈ declarations sourceFile /\ ts.name d = n) /\
  (forall n t, Map_get n (traverse sourceFile) = Some t -> name t = n).
Proof.
  pose proof (traverse_run sourceFile) as H.
  pose proof (run_keys _ _ _ H) as Hk. simpl in Hk.
  split; [exact Hk |]. split; [| split].
  - rewrite Hk. apply NoDup_firstSeen, NoDup_nil_2.
  - intros n. rewrite Hk, elem_of_firstSeen, list_elem_of_fmap. split.
    + intros [Hn | (d & -> & Hd)]; [by apply elem_of_nil in Hn | by exists d].
    + intros (d & Hd & <-). right. by exists d.
  - apply (run_wellKeyed _ _ _ H). intros k t Ht. done.
Qed.

(** X4: at the end of the run the occurrences recorded for a name are
    exactly the declarations of that name in walk order, and the member
    map holds exactly the member names those declarations declare; a name
    without declaration is not tracked. *)
Theorem X4_occurences_and_members (sourceFile : ts.SourceFile) (n : string) :
  occurencesOf n (traverse sourceFile) = named n (declarations sourceFile) /\
  dom (membersOf n (traverse sourceFile))
  = ⋃ (declaredNames <$> named n (declarations sourceFile)) /\
  (Map_get n (traverse sourceFile) = None <-> named n (declarations sourceFile) = []).
Proof.
  pose proof (traverse_walked sourceFile) as W.
  split; [apply (walked_occurences _ _ _ W n) |]. split.
  - rewrite (walked_members _ _ _ W n). unfold membersOf. simpl.
    by rewrite dom_empty_L, (left_id_L ∅ (∪)).
  - rewrite Map_get_None_keys, (run_keys _ _ _ (traverse_run sourceFile)).
    rewrite elem_of_firstSeen. simpl. split.
    + intros H. apply named_nil. intros Hin. apply H. by right.
    + intros H [Hin | Hin]; [by apply elem_of_nil in Hin |].
      apply list_elem_of_fmap in Hin as (d & -> & Hd).
      assert (d ∈ named (ts.name d) (declarations sourceFile)) as Hd'
        by (by apply elem_of_named).
      rewrite H in Hd'. by apply elem_of_nil in Hd'.
Qed.

Lemma Map_get_elem_NoDup k t (st : Registry) :
  NoDup (keys st) -> (k, t) ∈ st -> Map_get k st = Some t.
Proof.
  unfold keys. induction st as [|[k0 t0] st IH]; intros HN Hin.
  - by apply elem_of_nil in Hin.
  - rewrite fmap_cons in HN. apply NoDup_cons in HN as [Hk HN].
    apply elem_of_cons in Hin as [[= -> ->] | Hin]; simpl.
    + by rewrite decide_True.
    + rewrite decide_False; [by apply IH |].
      intros ->. apply Hk. apply list_elem_of_fmap. by exists (k, t).
Qed.

(** X5: every finding is the expected finding of a declaration of the
    tree; no declaration of its name is exported, and the first
    declaration of its name is not const.  So an exported enum is never
    reported, nor is any declaration merged with it. *)
Theorem X5_findings_are_sound (sourceFile : ts.SourceFile) (f : Lint.RuleFailure) :
  f ∈ walk sourceFile ->
  exists d,
    d ∈ declarations sourceFile /\
    f = expectedFinding d /\
    firstIsConst (ts.name d) (declarations sourceFile) = Some false /\
    forall d', d' ∈ declarations sourceFile -> ts.name d' = ts.name d ->
               Lint.hasModifier (ts.modifiers d') ts.ExportKeyword = false.
Proof.
  intros Hf. rewrite walk_expected in Hf.
  apply list_elem_of_In, in_flat_map in Hf as ([k t] & Hin & Hf).
  apply list_elem_of_In in Hin. simpl in Hf. unfold expectedFindings in Hf.
  destruct (isConst t) eqn:Hi; [done |].
  destruct (canBeConst t) eqn:Hc; [| done].
  apply in_map_iff in Hf as (d & <- & Hd). apply list_elem_of_In in Hd.
  pose proof (traverse_walked sourceFile) as W.
  pose proof (traverse_run sourceFile) as Rn.
  assert (Hget : Map_get k (traverse sourceFile) = Some t).
  { apply Map_get_elem_NoDup; [| done]. apply (walked_NoDup _ _ _ W), NoDup_nil_2. }
  pose proof (walked_occurences _ _ _ W k) as Ho.
  unfold occurencesOf in Ho. rewrite Hget in Ho. simpl in Ho.
  rewrite Ho in Hd. apply elem_of_named in Hd as [Hd Hname].
  exists d. split; [done |]. split; [done |]. rewrite Hname. split.
  - pose proof (run_isConst _ _ _ Rn k) as Hic. rewrite Hget in Hic. simpl in Hic.
    by rewrite <- Hic, Hi.
  - intros d' Hd' Hname'.
    destruct (Lint.hasModifier (ts.modifiers d') ts.ExportKeyword) eqn:Hx; [| done].
    pose proof (walked_export _ _ _ W d' Hd' Hx) as Hfalse.
    unfold canBeConstOf in Hfalse. rewrite Hname', Hget in Hfalse. simpl in Hfalse.
    congruence.
Qed.

Lemma X5_findings_are_sound_witness :
  exists d,
    d ∈ declarations program_A_then_B /\
    expectedFinding enum_A = expectedFinding d /\
    firstIsConst (ts.name d) (declarations program_A_then_B) = Some false /\
    forall d', d' ∈ declarations program_A_then_B -> ts.name d' = ts.name d ->
               Lint.hasModifier (ts.modifiers d') ts.ExportKeyword = false.
Proof.
  apply (X5_findings_are_sound program_A_then_B (expectedFinding enum_A)).
  vm_compute. apply list_elem_of_here.
Defined.

(** X6: the findings are listed enum by enum in the order of the first
    declaration of each name, and within one enum in the order of its
    declarations: the output is determined by the declarations of the tree
    and the final eligibility of each name. *)
Theorem X6_findings_in_declaration_order (sourceFile : ts.SourceFile) :
  walk sourceFile
  = flat_map
      (fun n => if reportable n (traverse sourceFile)
                then expectedFinding <$> named n (declarations sourceFile)
                else [])
      (firstSeen [] (ts.name <$> declarations sourceFile)).
Proof.
  pose proof (traverse_walked sourceFile) as W.
  pose proof (run_keys _ _ _ (traverse_run sourceFile)) as Hk. simpl in Hk.
  rewrite walk_expected, <- Hk.
  rewrite (flat_map_entries (fun _ t => expectedFindings t))
    by (apply (walked_NoDup _ _ _ W), NoDup_nil_2).
  apply flat_map_ext_elem. intros n _. unfold reportable.
  pose proof (walked_occurences _ _ _ W n) as Ho. unfold occurencesOf in Ho.
  destruct (Map_get n (traverse sourceFile)) as [t|]; [| done].
  simpl in Ho. unfold expectedFindings. rewrite Ho.
  by destruct (isConst t), (canBeConst t).
Qed.

(** ** A declaration of an enum tracked as const *)

Lemma isConstMember_const track member st :
  isConst track = true -> isConstMember track member st = (true, st).
Proof. intros H. unfold isConstMember. by rewrite H. Qed.

Lemma fold_visitMember_const key ms : forall st track,
  Map_get key st = Some track ->
  isConst track = true ->
  (forall n, n ≠ key -> Map_get n (fold_left (visitMember key) ms st) = Map_get n st) /\
  exists track',
    Map_get key (fold_left (visitMember key) ms st) = Some track' /\
    canBeConst track' = canBeConst track /\
    (forall k, k ∈ ts.propertyName <$> ms -> members track' !! k = Some true) /\
    (forall k, k ∉ ts.propertyName <$> ms -> members track' !! k = members track !! k).
Proof.
  induction ms as [|m ms IH]; intros st track H Hi; simpl.
  - split; [done |]. exists track. repeat split; try done.
    intros k Hk. by apply elem_of_nil in Hk.
  - pose proof (visitMember_own key st m track H) as Hown.
    rewrite (isConstMember_const _ _ _ Hi) in Hown. cbn [fst snd] in Hown.
    unfold canBeConstOf in Hown. rewrite H in Hown. simpl in Hown.
    rewrite andb_true_r in Hown.
    destruct (IH _ _ Hown Hi) as (Hothers & track' & Hget & Hc & Hin & Hout).
    simpl in *. split.
    + intros n Hne. rewrite (Hothers n Hne). unfold visitMember. rewrite H.
      rewrite (isConstMember_const _ _ _ Hi). cbn [fst snd].
      by rewrite !Map_get_assign_ne.
    + exists track'. split; [done |]. split; [done |]. split.
      * intros k Hk. destruct (decide (k ∈ ts.propertyName <$> ms)) as [Hk' | Hk'].
        -- by apply Hin.
        -- rewrite (Hout k Hk'). apply elem_of_cons in Hk as [-> | Hk]; [| done].
           by rewrite lookup_insert_eq.
      * intros k Hk. apply not_elem_of_cons in Hk as [Hk1 Hk2].
        rewrite (Hout k Hk2). by rewrite lookup_insert_ne.
Qed.

(** X7: the initializers of an enum tracked as const are not evaluated.
    Processing a declaration of such an enum records each of its members
    constant and changes no other entry of the registry, even when an
    initializer indexes another enum dynamically. *)
Theorem X7_const_enum_is_not_evaluated (node : ts.EnumDeclaration) (st : Registry) :
  match Map_get (ts.name node) st with
  | Some track => isConst track
  | None => Lint.hasModifier (ts.modifiers node) ts.ConstKeyword
  end = true ->
  (forall n, n ≠ ts.name node ->
             Map_get n (visitEnumDeclaration node st) = Map_get n st) /\
  (forall k, k ∈ declaredNames node ->
             membersOf (ts.name node) (visitEnumDeclaration node st) !! k = Some true) /\
  (forall k, k ∉ declaredNames node ->
             membersOf (ts.name node) (visitEnumDeclaration node st) !! k
             = membersOf (ts.name node) st !! k).
Proof.
  intros Hconst.
  assert (Hi : isConst match Map_get (ts.name node) st with
                       | Some t => set_occurences (occurences t ++ [node]) t
                       | None => {| name := ts.name node;
                                    isConst := Lint.hasModifier (ts.modifiers node)
                                                 ts.ConstKeyword;
                                    occurences := [node];
                                    members := ∅;
                                    canBeConst := true |}
                       end = true)
    by (by destruct (Map_get (ts.name node) st)).
  destruct (fold_visitMember_const (ts.name node) (ts.members node) _ _
              (_addEnum_own node st) Hi)
    as (Hothers & track' & Hget & _ & Hin & Hout).
  unfold visitEnumDeclaration, membersOf, declaredNames.
  split; [| split].
  - intros n Hne. rewrite Map_get_assign_ne by done.
    rewrite (Hothers n Hne). by apply _addEnum_other.
  - intros k Hk. rewrite elem_of_list_to_set in Hk.
    rewrite Map_get_assign_eq, Hget. simpl. by apply Hin.
  - intros k Hk. rewrite elem_of_list_to_set in Hk.
    rewrite Map_get_assign_eq, Hget. simpl. rewrite (Hout k Hk).
    by destruct (Map_get (ts.name node) st).
Qed.

Lemma X7_const_enum_is_not_evaluated_witness :
  Map_get "A" (visitEnumDeclaration const_enum_K registry_A) = Map_get "A" registry_A /\
  membersOf "K" (visitEnumDeclaration const_enum_K registry_A) !! Some "V" = Some true.
Proof.
  destruct (X7_const_enum_is_not_evaluated const_enum_K registry_A eq_refl)
    as (Hothers & Hdeclared & _).
  split.
  - apply Hothers. intros H. discriminate H.
  - apply Hdeclared. vm_compute. reflexivity.
Defined.

(** ** The exact effect of the evaluator on the registry *)

Lemma indexesDynamically_occurs n e :
  indexesDynamically n e = true ->
  exists k, occursIn (ts.ElementAccessExpression (ts.Identifier n) k) e /\
            isStringLiteralArgument k = false.
Proof.
  induction e as [text|text|e name IH|e a IHe IHa|children IH]
    using Expression_nested_ind; cbn [indexesDynamically]; intros H.
  - done.
  - done.
  - destruct (IH H) as (k & Hocc & Hk). exists k. split; [| done].
    by apply occurs_property_expression.
  - apply orb_true_iff in H as [H | H]; [apply orb_true_iff in H as [H | H] |].
    + apply andb_true_iff in H as [He Ha]. apply negb_true_iff in Ha.
      destruct e; try done. simpl in He. apply bool_decide_eq_true in He as ->.
      exists a. split; [apply occurs_here | done].
    + destruct (IHe H) as (k & Hocc & Hk). exists k. split; [| done].
      by apply occurs_element_expression.
    + destruct a as [x|]; [| done]. simpl in IHa.
      destruct (IHa H) as (k & Hocc & Hk). exists k. split; [| done].
      by apply occurs_element_argument.
  - apply existsb_exists in H as (child & Hin & Hchild).
    rewrite Forall_forall in IH.
    destruct (IH child (proj2 (list_elem_of_In _ _) Hin) Hchild) as (k & Hocc & Hk).
    exists k. split; [| done]. by apply (occurs_child _ _ child).
Qed.

Lemma set_canBeConst_false_id t : canBeConst t = false -> set_canBeConst false t = t.
Proof. destruct t as [? ? ? ? c]. simpl. by intros ->. Qed.

Lemma _isConstInitializer_clears n e ms st :
  indexesDynamically n e = true ->
  is_Some (Map_get n st) ->
  canBeConstOf n (_isConstInitializer e ms st).2 = Some false.
Proof.
  intros Hd [t Ht].
  destruct (indexesDynamically_occurs _ _ Hd) as (k & Hocc & Hk).
  assert (HE : members <$> Map_get n (true, st).2 = Some (members t))
    by (simpl; by rewrite Ht).
  destruct (cb_reaches_indexed_access ms n k (members t) e Hocc
              (or_introl Hk) (true, st) HE) as [_ Hcl].
  by apply Hcl.
Qed.

(** X8: the only effect of evaluating an initializer on the registry is
    to clear [canBeConst] of the tracked enums it indexes dynamically:
    the keys and their order, and every other entry and field, are
    unchanged. *)
Theorem X8_effect_of_the_evaluator
    (initializer : ts.Expression) (ms : gmap (option string) bool) (st : Registry) :
  keys (_isConstInitializer initializer ms st).2 = keys st /\
  forall n,
    Map_get n (_isConstInitializer initializer ms st).2
    = if indexesDynamically n initializer
      then set_canBeConst false <$> Map_get n st
      else Map_get n st.
Proof.
  pose proof (_isConstInitializer_onlyClears initializer ms st) as [Hk Hc].
  split; [exact Hk |]. intros n.
  destruct (indexesDynamically n initializer) eqn:Hd.
  - destruct (Map_get n st) as [t|] eqn:Ht.
    + assert (Hcl : canBeConstOf n (_isConstInitializer initializer ms st).2 = Some false).
      { apply _isConstInitializer_clears; [done |]. rewrite Ht. by eexists. }
      unfold canBeConstOf in Hcl.
      destruct (Hc n) as [E | E]; rewrite Ht in E; [| exact E].
      rewrite E in Hcl. simpl in Hcl. injection Hcl as Hcl.
      rewrite E. simpl. by rewrite set_canBeConst_false_id.
    + destruct (Hc n) as [E | E]; rewrite Ht in E; exact E.
  - apply (cb_untouched n ms initializer Hd (true, st)).
Qed.

(** ** Unsafe uses after the declaration *)

Lemma walkCb_tracked n node parent b st :
  is_Some (Map_get n st) -> is_Some (Map_get n (walkCb parent b node st)).
Proof.
  intros [t Ht].
  destruct (walked_downward _ _ _ (walkCb_walked node parent b st) n (canBeConst t)) as [H | H];
    try (unfold canBeConstOf; by rewrite Ht);
    unfold canBeConstOf in H; by destruct (Map_get n (walkCb parent b node st)).
Qed.

Lemma walkCb_keeps_cleared n node parent b st :
  canBeConstOf n st = Some false -> canBeConstOf n (walkCb parent b node st) = Some false.
Proof.
  intros H. by destruct (walked_downward _ _ _ (walkCb_walked node parent b st) n false H).
Qed.

Lemma walkChildren_tracked n parent children : forall st,
  is_Some (Map_get n st) -> is_Some (Map_get n (walkChildren parent children st)).
Proof.
  unfold walkChildren. induction children as [|c cs IH]; intros st H; simpl; [done |].
  by apply IH, walkCb_tracked.
Qed.

Lemma walkChildren_keeps_cleared n parent children : forall st,
  canBeConstOf n st = Some false ->
  canBeConstOf n (walkChildren parent children st) = Some false.
Proof.
  unfold walkChildren. induction children as [|c cs IH]; intros st H; simpl; [done |].
  by apply IH, walkCb_keeps_cleared.
Qed.

Lemma walkChildren_usedUnsafely n parent children :
  Forall (fun node => forall parent b st,
            is_Some (Map_get n st) -> usedUnsafely n parent b node = true ->
            canBeConstOf n (walkCb parent b node st) = Some false) children ->
  forall st,
    is_Some (Map_get n st) ->
    existsb (usedUnsafely n parent false) children = true ->
    canBeConstOf n (walkChildren parent children st) = Some false.
Proof.
  induction 1 as [|node l Hnode Hl IH]; intros st Ht Hu; [done |].
  simpl in Hu. apply orb_true_iff in Hu as [Hu | Hu].
  - apply (walkChildren_keeps_cleared n parent l). by apply Hnode.
  - apply IH; [| done]. by apply walkCb_tracked.
Qed.

Lemma walkCb_usedUnsafely n node : forall parent b st,
  is_Some (Map_get n st) -> usedUnsafely n parent b node = true ->
  canBeConstOf n (walkCb parent b node st) = Some false.
Proof.
  induction node as [text|text|e name IH|e a IHe IHa|e IH|d|children IH]
    using Node_nested_ind; intros parent b st Ht Hu; cbn [walkCb usedUnsafely] in *.
  - apply andb_true_iff in Hu as [Hn Hx]. apply bool_decide_eq_true in Hn as ->.
    apply negb_true_iff in Hx. unfold _checkUsage. unfold usageExempt in Hx.
    rewrite Hx. unfold _getEnumInScope. destruct Ht as [t Ht]. rewrite Ht.
    rewrite canBeConstOf_assign_clear, decide_True by done.
    unfold canBeConstOf. by rewrite Ht.
  - done.
  - rewrite _checkUsage_name_of_property_access. by apply IH.
  - apply orb_true_iff in Hu as [Hu | Hu].
    + destruct a as [argument|]; [| by apply IHe].
      apply walkCb_keeps_cleared. by apply IHe.
    + destruct a as [argument|]; [| done]. simpl in IHa.
      apply IHa; [| done]. by apply walkCb_tracked.
  - by apply IH.
  - done.
  - by apply (walkChildren_usedUnsafely n (ts.OtherNode children)).
Qed.

(** X9: an unsafe use after the declaration always disqualifies.  When
    the statements that follow the first declaration of [n] contain,
    outside enum declarations, an identifier [n] in a position the usage
    validator does not exempt, the run ends with [canBeConst] false for
    [n], and [n] fails the test of the report loop. *)
Theorem X9_unsafe_use_disqualifies
    (sourceFile : ts.SourceFile) (before after : list ts.Node) (n : string) :
  ts.statements sourceFile = before ++ after ->
  n ∈ ts.name <$> flat_map declarationsOf before ->
  existsb (usedUnsafely n (ts.sourceFileNode sourceFile) false) after = true ->
  canBeConstOf n (traverse sourceFile) = Some false /\
  reportable n (traverse sourceFile) = false.
Proof.
  intros Hsplit Hbefore Hafter.
  set (parent := ts.sourceFileNode sourceFile).
  assert (Htraverse : traverse sourceFile
                      = walkChildren parent after (walkChildren parent before [])).
  { unfold traverse, walkChildren, parent. by rewrite Hsplit, fold_left_app. }
  assert (Htracked : is_Some (Map_get n (walkChildren parent before []))).
  { destruct (Map_get n (walkChildren parent before [])) eqn:E; [by eexists |].
    apply Map_get_None_keys in E. exfalso. apply E.
    rewrite (run_keys _ _ _ (walkChildren_run parent before [])).
    apply elem_of_firstSeen. by right. }
  assert (Hc : canBeConstOf n (traverse sourceFile) = Some false).
  { rewrite Htraverse. apply walkChildren_usedUnsafely; try done.
    apply Forall_forall. intros node _. apply walkCb_usedUnsafely. }
  split; [exact Hc |]. unfold reportable. unfold canBeConstOf in Hc.
  destruct (Map_get n (traverse sourceFile)) as [t|]; [| done].
  simpl in Hc. injection Hc as ->. by rewrite andb_false_r.
Qed.

Lemma X9_unsafe_use_disqualifies_witness :
  canBeConstOf "A" (traverse program_A_indexed_by_variable) = Some false /\
  reportable "A" (traverse program_A_indexed_by_variable) = false.
Proof.
  apply (X9_unsafe_use_disqualifies program_A_indexed_by_variable
           [ts.EnumDeclarationNode enum_A]
           [ts.OtherNode [ts.ElementAccessNode (ts.IdentifierNode "A")
                                               (Some (ts.IdentifierNode "k"))]] "A").
  - reflexivity.
  - apply list_elem_of_here.
  - reflexivity.
Defined.

(** ** A dynamic index in an initializer that is evaluated *)

Lemma assign_keeps_cleared key f n st :
  (forall t, canBeConst t = false -> canBeConst (f t) = false) ->
  canBeConstOf n st = Some false ->
  canBeConstOf n (assign key f st) = Some false.
Proof.
  intros Hf H. unfold canBeConstOf in *. rewrite Map_get_assign.
  destruct (decide (key = n)) as [-> | Hne]; [| done].
  destruct (Map_get n st) as [t|]; [| done]. simpl in *.
  injection H as H. by rewrite Hf.
Qed.

Lemma fold_visitMember_keeps_cleared key n ms : forall st,
  canBeConstOf n st = Some false ->
  canBeConstOf n (fold_left (visitMember key) ms st) = Some false.
Proof.
  induction ms as [|m ms IH]; intros st H; simpl; [done |].
  apply IH. by destruct (visitMember_downward key st m n false H).
Qed.

Lemma tracked_keys n (st st' : Registry) :
  keys st' = keys st -> is_Some (Map_get n st) -> is_Some (Map_get n st').
Proof.
  intros Hk [t Ht]. destruct (Map_get n st') eqn:E; [by eexists |].
  apply Map_get_None_keys in E. rewrite Hk in E.
  apply Map_get_None_keys in E. congruence.
Qed.

(** X10: an initializer that is evaluated and indexes an enum dynamically
    disqualifies that enum.  When a declaration of an enum not tracked as
    const has a member whose initializer indexes [n] with an index that is
    absent or not a string literal, and [n] is the declared enum or an
    enum tracked before, [canBeConst] of [n] is false after the
    declaration. *)
Theorem X10_dynamic_index_in_initializer_disqualifies
    (node : ts.EnumDeclaration) (st : Registry) (n : string)
    (pre post : list ts.EnumMember) (member : ts.EnumMember) (e : ts.Expression) :
  ts.members node = pre ++ member :: post ->
  ts.initializer member = Some e ->
  indexesDynamically n e = true ->
  n = ts.name node \/ is_Some (Map_get n st) ->
  match Map_get (ts.name node) st with
  | Some track => isConst track
  | None => Lint.hasModifier (ts.modifiers node) ts.ConstKeyword
  end = false ->
  canBeConstOf n (visitEnumDeclaration node st) = Some false.
Proof.
  intros Hmembers Hinit Hdyn Htracked Hconst.
  unfold visitEnumDeclaration. rewrite Hmembers, fold_left_app. cbn [fold_left].
  set (key := ts.name node).
  set (st1 := fold_left (visitMember key) pre (_addEnum node st)).
  destruct (fold_visitMember_own key pre _ _ (_addEnum_own node st))
    as (track1 & Hget1 & _ & Hi1 & _).
  fold st1 in Hget1.
  assert (Hi : isConst track1 = false).
  { rewrite Hi1. revert Hconst. by destruct (Map_get (ts.name node) st). }
  assert (Hn1 : is_Some (Map_get n st1)).
  { destruct Htracked as [Hn | Hst]; [rewrite Hn; fold key; rewrite Hget1; by eexists |].
    apply (tracked_keys n (_addEnum node st)); [apply fold_visitMember_keys |].
    destruct (decide (n = ts.name node)) as [-> | Hne].
    - rewrite _addEnum_own. by eexists.
    - by rewrite _addEnum_other. }
  apply assign_keeps_cleared; [by intros t -> |].
  apply fold_visitMember_keeps_cleared.
  unfold visitMember. rewrite Hget1. unfold isConstMember. rewrite Hi, Hinit.
  apply assign_keeps_cleared; [done |].
  apply assign_keeps_cleared; [by intros t -> |].
  by apply _isConstInitializer_clears.
Qed.

Lemma X10_dynamic_index_in_initializer_disqualifies_witness :
  canBeConstOf "A" (visitEnumDeclaration enum_B_indexing_A_by_variable registry_A)
  = Some false.
Proof.
  apply (X10_dynamic_index_in_initializer_disqualifies
           enum_B_indexing_A_by_variable registry_A "A" []
           [] (ts.mkEnumMember (Some "Y") (Some access_A_i)) access_A_i).
  - reflexivity.
  - reflexivity.
  - reflexivity.
  - right. eexists. vm_compute. reflexivity.
  - reflexivity.
Defined.

(** ** Eligible entries have only constant members *)

Lemma fold_visitMember_constant key ms : forall st track,
  Map_get key st = Some track ->
  (canBeConst track = true -> membersAllConstant track) ->
  exists track',
    Map_get key (fold_left (visitMember key) ms st) = Some track' /\
    (canBeConst track' = true -> membersAllConstant track').
Proof.
  induction ms as [|m ms IH]; intros st track H Hinv; simpl.
  - by exists track.
  - apply (IH _ _ (visitMember_own key st m track H)). simpl.
    intros [Hc Hv]%andb_true_iff k v. simpl. rewrite Hv.
    assert (canBeConst track = true) as Hct.
    { unfold canBeConstOf in Hc.
      destruct (isConstMember_onlyClears track m st) as [_ Hoc].
      destruct (Hoc key) as [E | E]; rewrite E, H in Hc; simpl in Hc; done. }
    destruct (decide (ts.propertyName m = k)) as [-> | Hne].
    + rewrite lookup_insert_eq. congruence.
    + rewrite lookup_insert_ne by done. by apply Hinv.
Qed.

Lemma onlyClears_constantWhenEligible st st' :
  onlyClears st st' -> constantWhenEligible st -> constantWhenEligible st'.
Proof.
  intros [_ H] Hinv n t Ht Hc. destruct (H n) as [E | E]; rewrite E in Ht.
  - by apply (Hinv n).
  - destruct (Map_get n st); [| done]. injection Ht as <-. done.
Qed.

Lemma visitEnumDeclaration_constantWhenEligible d st :
  constantWhenEligible st -> constantWhenEligible (visitEnumDeclaration d st).
Proof.
  intros Hinv n t Ht Hc. destruct (decide (n = ts.name d)) as [-> | Hne].
  - unfold visitEnumDeclaration in Ht. rewrite Map_get_assign_eq in Ht.
    destruct (fold_visitMember_constant (ts.name d) (ts.members d) _ _
                (_addEnum_own d st)) as (track' & Hget & Hall).
    + destruct (Map_get (ts.name d) st) as [t0|] eqn:E0; simpl.
      * intros Hc0 k v. simpl. by apply (Hinv (ts.name d) t0 E0 Hc0).
      * intros _ k v Hk. simpl in Hk. by rewrite lookup_empty in Hk.
    + rewrite Hget in Ht. simpl in Ht. injection Ht as <-. simpl in *.
      apply andb_true_iff in Hc as [Hc _]. by apply Hall.
  - destruct (visitEnumDeclaration_other d st n Hne) as [E | E]; rewrite E in Ht.
    + by apply (Hinv n).
    + destruct (Map_get n st); [| done]. injection Ht as <-. done.
Qed.

(** X11: an enum that can still be const at the end of the run has every
    recorded member recorded constant; so a reported enum has no member
    that was judged non-constant, in any of its declarations. *)
Theorem X11_eligible_enums_have_constant_members
    (sourceFile : ts.SourceFile) (n : string) :
  canBeConstOf n (traverse sourceFile) = Some true ->
  forall k v, membersOf n (traverse sourceFile) !! k = Some v -> v = true.
Proof.
  intros Hc k v Hk.
  assert (Hinv : constantWhenEligible (traverse sourceFile)).
  { apply (traverse_along (fun _ st st' =>
                             constantWhenEligible st -> constantWhenEligible st')).
    - apply onlyClears_constantWhenEligible.
    - apply visitEnumDeclaration_constantWhenEligible.
    - intros ds1 ds2 st1 st2 st3 H12 H23 H1. by apply H23, H12.
    - intros n0 t0 H0. done. }
  unfold canBeConstOf, membersOf in *.
  destruct (Map_get n (traverse sourceFile)) as [t|] eqn:Ht; [| done].
  simpl in *. injection Hc as Hc. by apply (Hinv n t Ht Hc k v).
Qed.

Lemma X11_eligible_enums_have_constant_members_witness :
  canBeConstOf "B" (traverse program_A_then_B) = Some true /\
  forall k v, membersOf "B" (traverse program_A_then_B) !! k = Some v -> v = true.
Proof.
  split; [vm_compute; reflexivity |].
  apply (X11_eligible_enums_have_constant_members program_A_then_B "B").
  vm_compute. reflexivity.
Defined.
